(** * OTTO audio core: buffer pool, buffer handles and process packets

    A shallow embedding of [src/core/audio/processor.hpp]: the
    reference-counted [AudioBufferHandle], the fixed-capacity
    [AudioBufferPool] that mints handles, and the [ProcessData] packet.

    Conventions of the embedding.
    - [int] is 32 bits wide and two's complement; [std::size_t] is
      [size_bits] wide, where the width is fixed by the [DataModel]
      (32 on ILP32 targets such as 32-bit ARM, 64 on LP64 targets such as
      x86-64 and AArch64).  Values of both types are carried as [Z];
      conversions reduce modulo the width of the destination type.
    - Methods that touch memory are functions from the heap to an
      [outcome]: a normal return with the new heap, a call of
      [std::terminate], or undefined behaviour (a null or dangling
      dereference, an access outside an allocation, signed overflow).
    - The heap that handles point into is the pool object: an [int*] of a
      handle is the index of a cell of [reference_counts], a [float*] is an
      allocation identity together with an offset into that allocation.
    - Log output ([LOGI], [LOGF]) is not part of the state.  An array
      [new] of a size the implementation admits is taken to find the
      memory; one of a larger size throws, which ends a [noexcept]
      function in [std::terminate]. *)

From Stdlib Require Import ZArith Lia.
From Stdlib Require Import Floats.SpecFloat.
From stdpp Require Import base tactics option list vector.

Local Open Scope Z_scope.

(** ** Machine integers *)

Inductive DataModel := ILP32 | LP64.
Existing Class DataModel.

Definition size_bits {dm : DataModel} : Z :=
  match dm with ILP32 => 32 | LP64 => 64 end.

Definition INT_MIN : Z := - 2 ^ 31.
Definition INT_MAX : Z := 2 ^ 31 - 1.

(** Conversion to [int]: the value modulo 2^32 in the signed range. *)
Definition to_int (z : Z) : Z := (z + 2 ^ 31) mod 2 ^ 32 - 2 ^ 31.

(** Conversion to [std::size_t]: the value modulo 2^size_bits. *)
Definition to_size {dm : DataModel} (z : Z) : Z := z mod 2 ^ size_bits.

(** The largest size of an object in bytes, and [sizeof(float)]. *)
Definition PTRDIFF_MAX {dm : DataModel} : Z := 2 ^ (size_bits - 1) - 1.
Definition sizeof_float : Z := 4.

Definition is_int (z : Z) : Prop := INT_MIN <= z <= INT_MAX.
Definition is_size {dm : DataModel} (z : Z) : Prop := 0 <= z < 2 ^ size_bits.

(** ** Outcomes of a call *)

Inductive outcome (A : Type) : Type :=
| Returns (a : A)
| Terminates
| Undefined.
Arguments Returns {A} a.
Arguments Terminates {A}.
Arguments Undefined {A}.

(** ** Samples and pointers *)

(** A sample is a [float]; [std::fill(begin(), end(), 0)] stores the
    conversion of the integer 0, which is positive zero. *)
Definition float : Type := spec_float.
Definition float_zero : float := S754_zero false.

(** [float*]: null, or an offset (counted in samples) into the allocation
    with identity [blk]. *)
Inductive pointer : Type :=
| nullptr
| Ptr (blk : nat) (off : Z).

(** [p + n].  Adding a nonzero offset to the null pointer is undefined.
    The address is formed without consulting the bounds of the array it
    points into; the bounds are checked where the address is used, by
    [load_sample] and [store_sample], and [points_into] says that an
    address lies within the current array or one past its end, which is
    where C++ defines the addition. *)
Definition ptr_add (p : pointer) (n : Z) : option pointer :=
  match p with
  | nullptr => if n =? 0 then Some nullptr else None
  | Ptr b o => Some (Ptr b (o + n))
  end.

(** ** Objects *)

(** [struct AudioBufferHandle].  [_reference_count] is the [int*]: [None]
    is the null pointer, [Some c] points to cell [c] of the pool's
    [reference_counts]. *)
Record AudioBufferHandle : Type := mkHandle {
  _data : pointer;
  _length : Z;
  _reference_count : option nat;
}.

(** [struct AudioBufferPool].  [data] is the array owned by the
    [unique_ptr<float[]>] and [data_blk] the identity of that allocation;
    every [make_unique] yields a fresh identity, so pointers into an
    earlier array do not point into the current one. *)
Record AudioBufferPool : Type := mkPool {
  buffer_size : Z;
  reference_counts : list Z;
  _avaliable_buffers : Z;
  data : list float;
  data_blk : nat;
  _max_val : Z;
}.

Definition number_of_buffers : Z := 8.

(** ** The heap monad *)

Definition M (A : Type) : Type :=
  AudioBufferPool → outcome (A * AudioBufferPool).

Global Instance M_ret : MRet M := λ A a p, Returns (a, p).

Global Instance M_bind : MBind M := λ A B f m p,
  match m p with
  | Returns (a, p') => f a p'
  | Terminates => Terminates
  | Undefined => Undefined
  end.

Definition undefined {A} : M A := λ _, Undefined.
Definition terminate {A} : M A := λ _, Terminates.

(** The pool with one member replaced. *)
Definition with_counts (cs : list Z) (p : AudioBufferPool) : AudioBufferPool :=
  mkPool (buffer_size p) cs (_avaliable_buffers p) (data p) (data_blk p)
         (_max_val p).

Definition with_data (d : list float) (p : AudioBufferPool) : AudioBufferPool :=
  mkPool (buffer_size p) (reference_counts p) (_avaliable_buffers p) d
         (data_blk p) (_max_val p).

Definition with_max_val (v : Z) (p : AudioBufferPool) : AudioBufferPool :=
  mkPool (buffer_size p) (reference_counts p) (_avaliable_buffers p) (data p)
         (data_blk p) v.

Definition gets {A} (f : AudioBufferPool → A) : M A := λ p, Returns (f p, p).
Definition modify (f : AudioBufferPool → AudioBufferPool) : M unit :=
  λ p, Returns (tt, f p).

(** [*c] for an [int* c]. *)
Definition load_count (c : option nat) : M Z := λ p,
  match c with
  | None => Undefined
  | Some i =>
      match reference_counts p !! i with
      | Some v => Returns (v, p)
      | None => Undefined
      end
  end.

(** [*c = v] for an [int* c]. *)
Definition store_count (c : option nat) (v : Z) : M unit :=
  _ ← load_count c;
  match c with
  | None => undefined
  | Some i => cs ← gets reference_counts; modify (with_counts (<[i:=v]> cs))
  end.

(** [++] on the [int] that [c] points to: signed overflow is undefined. *)
Definition incr_count (c : option nat) : M unit :=
  v ← load_count c;
  if v <? INT_MAX then store_count c (v + 1) else undefined.

(** [--] on the [int] that [c] points to. *)
Definition decr_count (c : option nat) : M unit :=
  v ← load_count c;
  if INT_MIN <? v then store_count c (v - 1) else undefined.

(** [*q] for a [float* q] *)
Definition load_sample (q : pointer) : M float := λ p,
  match q with
  | nullptr => Undefined
  | Ptr b o =>
      if decide (b = data_blk p ∧ 0 <= o) then
        match data p !! Z.to_nat o with
        | Some x => Returns (x, p)
        | None => Undefined
        end
      else Undefined
  end.

(** [*q = x] for a [float* q] *)
Definition store_sample (q : pointer) (x : float) : M unit :=
  _ ← load_sample q;
  match q with
  | nullptr => undefined
  | Ptr _ o => d ← gets data; modify (with_data (<[Z.to_nat o:=x]> d))
  end.

(** ** [AudioBufferHandle] *)

Module Handle.
Section Methods.
Context {dm : DataModel}.

(** [AudioBufferHandle(float* data, std::size_t length, int& reference_count)] *)
Definition new (d : pointer) (len : Z) (rc : nat) : M AudioBufferHandle :=
  _ ← incr_count (Some rc);
  mret (mkHandle d len (Some rc)).

(** [~AudioBufferHandle()] *)
Definition destroy (h : AudioBufferHandle) : M unit :=
  match _reference_count h with
  | Some c => decr_count (Some c)
  | None => mret tt
  end.

(** [AudioBufferHandle(AudioBufferHandle&& rhs)]: returns the new handle
    and the state in which [rhs] is left. *)
Definition move (rhs : AudioBufferHandle)
  : M (AudioBufferHandle * AudioBufferHandle) :=
  mret (mkHandle (_data rhs) (_length rhs) (_reference_count rhs),
        mkHandle nullptr (_length rhs) None).

(** [AudioBufferHandle(const AudioBufferHandle& rhs)] *)
Definition copy (rhs : AudioBufferHandle) : M AudioBufferHandle :=
  _ ← incr_count (_reference_count rhs);
  mret (mkHandle (_data rhs) (_length rhs) (_reference_count rhs)).

(** [operator=(AudioBufferHandle&& rhs)] on the target [this]: returns
    the target and the source as the assignment leaves them. *)
Definition assign_move (this rhs : AudioBufferHandle)
  : M (AudioBufferHandle * AudioBufferHandle) :=
  mret (mkHandle (_data rhs) (_length rhs) (_reference_count rhs),
        mkHandle nullptr (_length rhs) None).

(** [operator=(const AudioBufferHandle& rhs)] on the target [this] *)
Definition assign_copy (this rhs : AudioBufferHandle) : M AudioBufferHandle :=
  let this' := mkHandle (_data rhs) (_length rhs) (_reference_count rhs) in
  _ ← incr_count (_reference_count this');
  mret this'.

Definition reference_count (h : AudioBufferHandle) : M Z :=
  load_count (_reference_count h).

Definition data (h : AudioBufferHandle) : pointer := _data h.

Definition size (h : AudioBufferHandle) : Z := _length h.

Definition begin (h : AudioBufferHandle) : pointer := _data h.

Definition end_ (h : AudioBufferHandle) : option pointer :=
  ptr_add (_data h) (_length h).

(** [operator[](std::size_t i)], read through the returned reference *)
Definition at_ (h : AudioBufferHandle) (i : Z) : M float :=
  match ptr_add (_data h) i with
  | Some q => load_sample q
  | None => undefined
  end.

(** [operator[](std::size_t i)], written through the returned reference *)
Definition set_at (h : AudioBufferHandle) (i : Z) (x : float) : M unit :=
  match ptr_add (_data h) i with
  | Some q => store_sample q x
  | None => undefined
  end.

Definition release (h : AudioBufferHandle) : M AudioBufferHandle :=
  _ ← decr_count (_reference_count h);
  mret (mkHandle nullptr (_length h) None).

(** [std::fill(first, first + n, x)] *)
Fixpoint fill (first : pointer) (n : nat) (x : float) : M unit :=
  match n with
  | O => mret tt
  | S n' =>
      _ ← store_sample first x;
      match ptr_add first 1 with
      | Some next => fill next n' x
      | None => undefined
      end
  end.

Definition clear (h : AudioBufferHandle) : M unit :=
  match end_ h with
  | Some _ => fill (begin h) (Z.to_nat (_length h)) float_zero
  | None => undefined
  end.

(** [length = length < 0 ? _length - idx : length] in [slice]: the
    conditional has type [std::size_t], so both arms are converted to it,
    and its value is converted back to the [int] parameter. *)
Definition slice_length (L idx length : Z) : Z :=
  to_int (if length <? 0 then to_size (L - to_size idx) else to_size length).

(** [slice(int idx, int length = -1)]: the handle
    [{_data + idx, std::size_t(length), *_reference_count}]. *)
Definition slice (h : AudioBufferHandle) (idx length : Z) : M AudioBufferHandle :=
  let length := slice_length (_length h) idx length in
  match ptr_add (_data h) idx, _reference_count h with
  | Some q, Some c => new q (to_size length) c
  | _, _ => undefined
  end.

Definition slice_default (h : AudioBufferHandle) (idx : Z) : M AudioBufferHandle :=
  slice h idx (-1).
End Methods.
End Handle.

(** ** [AudioBufferPool] *)

Module Pool.
Section Methods.
Context {dm : DataModel}.

(** [reserve(n)]: [make_unique<float[]>(n * buffer_size)] makes a fresh
    zero-initialised array, the number of samples being the product taken
    in [std::size_t].  When the size of that array in bytes exceeds the
    largest object size the array [new] throws, and the exception leaving
    the [noexcept] function ends in [std::terminate].  Then
    [reference_counts.resize(n, 0)], which keeps the cells the vector
    already has. *)
Definition reserve (n : Z) : M unit := λ p,
  let count := to_size (n * buffer_size p) in
  if sizeof_float * count <=? PTRDIFF_MAX then
    Returns (tt,
      mkPool (buffer_size p)
             (resize (Z.to_nat n) 0 (reference_counts p))
             n
             (replicate (Z.to_nat count) float_zero)
             (S (data_blk p))
             (_max_val p))
  else Terminates.

(** [AudioBufferPool(std::size_t buffer_size)] *)
Definition new (bs : Z) : outcome (unit * AudioBufferPool) :=
  reserve number_of_buffers (mkPool bs [] 0 [] 0 (to_size (-1))).

(** The body of the loop of [allocate] at a slot [i] whose count is
    below 1. *)
Definition allocate_at (i : nat) : M AudioBufferHandle :=
  max ← gets _max_val;
  _ ← (if Z.of_nat i >? max then modify (with_max_val (Z.of_nat i))
       else mret tt);
  _ ← store_count (Some i) 0;
  bs ← gets buffer_size;
  blk ← gets data_blk;
  let index := to_int (to_size (Z.of_nat i * bs)) in
  Handle.new (Ptr blk index) bs i.

(** The loop of [allocate] from index [i], with [n] cells left to
    visit; falling out of the loop reaches [std::terminate()]. *)
Fixpoint allocate_loop (n i : nat) : M AudioBufferHandle :=
  match n with
  | O => terminate
  | S n' =>
      c ← load_count (Some i);
      if c <? 1 then allocate_at i else allocate_loop n' (S i)
  end.

Definition allocate : M AudioBufferHandle :=
  cs ← gets reference_counts;
  allocate_loop (length cs) 0.

(** [allocate_clear()]: the local [res] is moved into the returned
    handle and then destroyed (eliding the move leaves the same heap). *)
Definition allocate_clear : M AudioBufferHandle :=
  res ← allocate;
  _ ← Handle.clear res;
  '(ret, res) ← Handle.move res;
  _ ← Handle.destroy res;
  mret ret.

Definition set_buffer_size (bs : Z) : M unit := λ p,
  reserve number_of_buffers
    (mkPool bs (reference_counts p) (_avaliable_buffers p)
            (data p) (data_blk p) (_max_val p)).

(** Modelled from the spec: [util::generate_array<NN>(gen)], declared in
    util headers that are not among the sources.  The spec describes its
    use in [allocate_multi] as [NN] independent calls, one per element:
    the array of [gen(0)], ..., [gen(NN - 1)], produced in index order. *)
Fixpoint generate_array {A} (n : nat) (i : Z) (gen : Z → M A) : M (list A) :=
  match n with
  | O => mret []
  | S n' =>
      x ← gen i;
      xs ← generate_array n' (i + 1) gen;
      mret (x :: xs)
  end.

(** [allocate_multi<NN>()] *)
Definition allocate_multi (NN : nat) : M (list AudioBufferHandle) :=
  generate_array NN 0 (λ _, allocate).

(** [allocate_multi_clear<NN>()] *)
Definition allocate_multi_clear (NN : nat) : M (list AudioBufferHandle) :=
  generate_array NN 0 (λ _, allocate_clear).
End Methods.
End Pool.

(** A pool after one construction and any number of operations: eight
    count cells, and an array of eight slots whose offsets fit an [int]. *)
Record pool_wf (p : AudioBufferPool) : Prop := {
  wf_counts : length (reference_counts p) = 8%nat;
  wf_size : 0 <= buffer_size p;
  wf_index : number_of_buffers * buffer_size p <= INT_MAX;
  wf_data : length (data p) = Z.to_nat (number_of_buffers * buffer_size p);
}.

(** ** [ProcessData<N>] *)

Module Packet.

(** Modelled from the spec: [midi::shared_vector], declared in
    core/audio/midi.hpp, which is not among the sources.  The spec calls
    it a shared sequence of events that reshaped packets reference
    rather than copy: a handle on a sequence kept in a store, here the
    position of the sequence in the store. *)
Record shared_vector (Event : Type) : Type := mkShared { sequence_id : nat }.
Arguments mkShared {Event} _.
Arguments sequence_id {Event} _.

Definition midi_store (Event : Type) : Type := list (list Event).

Definition events {Event} (st : midi_store Event) (v : shared_vector Event)
  : option (list Event) :=
  st !! sequence_id v.

(** [struct ProcessData<N>]: [audio] is the [std::array] of [N] handles,
    [midi] the [shared_vector<AnyMidiEvent>], [nframes] the [long] frame
    count. *)
Record ProcessData (Event : Type) (N : nat) : Type := mkPacket {
  audio : vec AudioBufferHandle N;
  midi : shared_vector Event;
  nframes : Z;
}.
Arguments mkPacket {Event N} _ _ _.
Arguments audio {Event N} _.
Arguments midi {Event N} _.
Arguments nframes {Event N} _.

(** Modelled from the spec: [ProcessData<N>::redirect], declared in
    processor.hpp and defined in processor.inl, which is not among the
    sources.  The spec: a new packet over a different set of handles
    that carries forward this packet's MIDI sequence and frame count
    unchanged. *)
Definition redirect {Event} {N NN : nat} (p : ProcessData Event N)
    (buf : vec AudioBufferHandle NN) : ProcessData Event NN :=
  mkPacket buf (midi p) (nframes p).

End Packet.

(** ** Running a sequence of calls on a freshly constructed pool *)

Definition run_new {dm : DataModel} {A} (bs : Z) (m : M A)
  : outcome (A * AudioBufferPool) :=
  match Pool.new bs with
  | Returns (_, p) => m p
  | Terminates => Terminates
  | Undefined => Undefined
  end.

Definition result {A} (o : outcome (A * AudioBufferPool)) : outcome A :=
  match o with
  | Returns (a, _) => Returns a
  | Terminates => Terminates
  | Undefined => Undefined
  end.

(** ** Concrete states *)

(** The pool of the end-to-end scenario (buffer size 64) with the first
    three slots held once each, and the handles [A], [B], [C] on them. *)
Definition pool_ABC : AudioBufferPool :=
  mkPool 64 [1; 1; 1; 0; 0; 0; 0; 0] 8 (replicate 512 float_zero) 1
         (2 ^ 64 - 1).

Definition handle_A : AudioBufferHandle := mkHandle (Ptr 1 0) 64 (Some 0%nat).
Definition handle_B : AudioBufferHandle := mkHandle (Ptr 1 64) 64 (Some 1%nat).
Definition handle_C : AudioBufferHandle := mkHandle (Ptr 1 128) 64 (Some 2%nat).

(** A pool with every slot held. *)
Definition pool_full : AudioBufferPool :=
  mkPool 64 [1; 1; 1; 1; 1; 1; 1; 1] 8 (replicate 512 float_zero) 1
         (2 ^ 64 - 1).

(** A pool whose slots are 2^31 samples long, the first one held once,
    and the handle on that slot. *)
Definition pool_wide : AudioBufferPool :=
  mkPool (2 ^ 31) [1; 0; 0; 0; 0; 0; 0; 0] 8
         (replicate (Z.to_nat (8 * 2 ^ 31)) float_zero) 1 (2 ^ 64 - 1).

Definition handle_wide : AudioBufferHandle :=
  mkHandle (Ptr 1 0) (2 ^ 31) (Some 0%nat).

(** The first steps of the end-to-end scenario: a pool of buffer size 64
    and three calls of [allocate]. *)
Definition allocate_ABC {dm : DataModel}
  : M (AudioBufferHandle * AudioBufferHandle * AudioBufferHandle) :=
  a ← Pool.allocate;
  b ← Pool.allocate;
  c ← Pool.allocate;
  mret (a, b, c).

(** The end-to-end scenario on handles: the counts of [A], [B], [C] after
    allocation, the count of [A] after copying it and after dropping the
    copy, and the slot of a handle allocated after [C] is released. *)
Definition end_to_end {dm : DataModel} : M (list Z * Z * Z * option nat) :=
  '(a, b, c) ← allocate_ABC;
  ra ← Handle.reference_count a;
  rb ← Handle.reference_count b;
  rc ← Handle.reference_count c;
  a2 ← Handle.copy a;
  copied ← Handle.reference_count a;
  _ ← Handle.destroy a2;
  dropped ← Handle.reference_count a;
  c ← Handle.release c;
  d ← Pool.allocate;
  mret ([ra; rb; rc], copied, dropped, _reference_count d).


(** The address [q] lies within the current array of the pool or one past
    its end. *)
Definition points_into (p : AudioBufferPool) (q : pointer) : Prop :=
  match q with
  | nullptr => False
  | Ptr b o => b = data_blk p ∧ 0 <= o <= Z.of_nat (length (data p))
  end.

(** The number of slots that [allocate] regards as free. *)
Definition free_slots (p : AudioBufferPool) : nat :=
  length (filter (λ c, c < 1) (reference_counts p)).

(** A handle as [release] and a move leave it: both pointers null. *)
Definition inert (h : AudioBufferHandle) : Prop :=
  _data h = nullptr ∧ _reference_count h = None.

(** The number of handles among [hs] that point to count cell [i]. *)
Definition shares (hs : list AudioBufferHandle) (i : nat) : Z :=
  Z.of_nat (length (filter (λ h, _reference_count h = Some i) hs)).

(** The states a program reaches that constructs a pool and then calls
    the methods of the pool and of the handles it holds, never assigning
    one handle to another: the pool together with the handles that exist.
    [sizes] are the buffer sizes the program uses.  Every call is one
    that returns. *)
Inductive reachable {dm : DataModel} (sizes : Z → Prop)
  : AudioBufferPool → list AudioBufferHandle → Prop :=
| reach_new bs p :
    sizes bs → Pool.new bs = Returns (tt, p) → reachable sizes p []
| reach_allocate p hs h p' :
    reachable sizes p hs → Pool.allocate p = Returns (h, p') →
    reachable sizes p' (h :: hs)
| reach_allocate_clear p hs h p' :
    reachable sizes p hs → Pool.allocate_clear p = Returns (h, p') →
    reachable sizes p' (h :: hs)
| reach_set_buffer_size p hs bs p' :
    reachable sizes p hs → sizes bs →
    Pool.set_buffer_size bs p = Returns (tt, p') →
    reachable sizes p' hs
| reach_copy p hs h h' p' :
    reachable sizes p hs → h ∈ hs → Handle.copy h p = Returns (h', p') →
    reachable sizes p' (h' :: hs)
| reach_slice p hs h idx len s p' :
    reachable sizes p hs → h ∈ hs →
    Handle.slice h idx len p = Returns (s, p') →
    reachable sizes p' (s :: hs)
| reach_move p hs1 h hs2 h' h0 p' :
    reachable sizes p (hs1 ++ h :: hs2) →
    Handle.move h p = Returns ((h', h0), p') →
    reachable sizes p' (hs1 ++ h' :: h0 :: hs2)
| reach_release p hs1 h hs2 h' p' :
    reachable sizes p (hs1 ++ h :: hs2) →
    Handle.release h p = Returns (h', p') →
    reachable sizes p' (hs1 ++ h' :: hs2)
| reach_destroy p hs1 h hs2 p' :
    reachable sizes p (hs1 ++ h :: hs2) →
    Handle.destroy h p = Returns (tt, p') →
    reachable sizes p' (hs1 ++ hs2)
| reach_clear p hs h p' :
    reachable sizes p hs → h ∈ hs → Handle.clear h p = Returns (tt, p') →
    reachable sizes p' hs
| reach_set_at p hs h i x p' :
    reachable sizes p hs → h ∈ hs → Handle.set_at h i x p = Returns (tt, p') →
    reachable sizes p' hs.

(** The buffer sizes whose eight slots can be indexed by an [int]. *)
Definition indexable (bs : Z) : Prop :=
  0 <= bs ∧ number_of_buffers * bs <= INT_MAX.

(** The scenario state after a fourth call of [allocate], and the handle
    that call returns. *)
Definition pool_ABCD : AudioBufferPool :=
  mkPool 64 [1; 1; 1; 1; 0; 0; 0; 0] 8 (replicate 512 float_zero) 1
         (2 ^ 64 - 1).

Definition handle_D : AudioBufferHandle := mkHandle (Ptr 1 192) 64 (Some 3%nat).

(** The scenario state after [C] is released, and the released handle. *)
Definition pool_AB : AudioBufferPool :=
  mkPool 64 [1; 1; 0; 0; 0; 0; 0; 0] 8 (replicate 512 float_zero) 1
         (2 ^ 64 - 1).

Definition handle_C_released : AudioBufferHandle := mkHandle nullptr 64 None.

(** The scenario state after [set_buffer_size(128)]. *)
Definition pool_ABC_resized : AudioBufferPool :=
  mkPool 128 [1; 1; 1; 0; 0; 0; 0; 0] 8 (replicate 1024 float_zero) 2
         (2 ^ 64 - 1).

(** A sample value other than zero. *)
Definition float_one : float := S754_finite false 8388608 (-23).

(** A pool of buffer size 4 whose samples are all one, with the first slot
    held, and the handle on that slot. *)
Definition pool_ones : AudioBufferPool :=
  mkPool 4 [1; 0; 0; 0; 0; 0; 0; 0] 8 (replicate 32 float_one) 1 (2 ^ 64 - 1).

Definition handle_ones : AudioBufferHandle := mkHandle (Ptr 1 0) 4 (Some 0%nat).

(** The pool that the constructor makes for the buffer size 2^61 + 8
    where [std::size_t] has 64 bits: eight times the buffer size wraps
    to 64, so the storage has 64 samples. *)
Definition pool_wrapped : AudioBufferPool :=
  mkPool (2 ^ 61 + 8) [0; 0; 0; 0; 0; 0; 0; 0] 8 (replicate 64 float_zero) 1
         (2 ^ 64 - 1).

(** * Properties *)

(** ** Integer conversions *)

Lemma size_bits_cases {dm : DataModel} : size_bits = 32 ∨ size_bits = 64.
Proof. destruct dm; [left|right]; reflexivity. Qed.

Lemma to_int_small (z : Z) : is_int z → to_int z = z.
Proof.
  unfold is_int, to_int, INT_MIN, INT_MAX. intros Hz.
  rewrite Z.mod_small; lia.
Qed.

Lemma to_size_small {dm : DataModel} (z : Z) : 0 <= z <= INT_MAX → to_size z = z.
Proof.
  unfold to_size, INT_MAX. intros Hz.
  destruct size_bits_cases as [-> | ->]; rewrite Z.mod_small; lia.
Qed.

Lemma to_size_id {dm : DataModel} (z : Z) : is_size z → to_size z = z.
Proof. unfold is_size, to_size. intros Hz. by rewrite Z.mod_small. Qed.

(** ** The heap operations *)

Lemma handle_eta (h : AudioBufferHandle) :
  mkHandle (_data h) (_length h) (_reference_count h) = h.
Proof. by destruct h. Qed.

Lemma with_counts_same (p : AudioBufferPool) :
  with_counts (reference_counts p) p = p.
Proof. by destruct p. Qed.

Lemma load_count_cell (p : AudioBufferPool) (c : nat) (n : Z) :
  reference_counts p !! c = Some n →
  load_count (Some c) p = Returns (n, p).
Proof. intros Hc. unfold load_count. by rewrite Hc. Qed.

Lemma store_count_cell (p : AudioBufferPool) (c : nat) (n v : Z) :
  reference_counts p !! c = Some n →
  store_count (Some c) v p
  = Returns (tt, with_counts (<[c:=v]> (reference_counts p)) p).
Proof.
  intros Hc. unfold store_count, mbind, M_bind.
  by rewrite (load_count_cell _ _ _ Hc).
Qed.

Lemma incr_count_cell (p : AudioBufferPool) (c : nat) (n : Z) :
  reference_counts p !! c = Some n → n < INT_MAX →
  incr_count (Some c) p
  = Returns (tt, with_counts (<[c:=n + 1]> (reference_counts p)) p).
Proof.
  intros Hc Hn. unfold incr_count, mbind, M_bind.
  rewrite (load_count_cell _ _ _ Hc).
  destruct (Z.ltb_spec n INT_MAX); [|lia].
  by apply store_count_cell with n.
Qed.

Lemma decr_count_cell (p : AudioBufferPool) (c : nat) (n : Z) :
  reference_counts p !! c = Some n → INT_MIN < n →
  decr_count (Some c) p
  = Returns (tt, with_counts (<[c:=n - 1]> (reference_counts p)) p).
Proof.
  intros Hc Hn. unfold decr_count, mbind, M_bind.
  rewrite (load_count_cell _ _ _ Hc).
  destruct (Z.ltb_spec INT_MIN n); [|lia].
  by apply store_count_cell with n.
Qed.

Lemma new_cell (p : AudioBufferPool) (d : pointer) (len : Z) (c : nat) (n : Z) :
  reference_counts p !! c = Some n → n < INT_MAX →
  Handle.new d len c p
  = Returns (mkHandle d len (Some c),
             with_counts (<[c:=n + 1]> (reference_counts p)) p).
Proof.
  intros Hc Hn. unfold Handle.new, mbind, M_bind.
  by rewrite (incr_count_cell _ _ _ Hc Hn).
Qed.

Lemma slice_cell {dm : DataModel} (p : AudioBufferPool) (h : AudioBufferHandle)
    (b : nat) (base : Z) (c : nat) (n idx len : Z) :
  _data h = Ptr b base → _reference_count h = Some c →
  reference_counts p !! c = Some n → n < INT_MAX →
  Handle.slice h idx len p
  = Returns (mkHandle (Ptr b (base + idx))
                      (to_size (Handle.slice_length (_length h) idx len))
                      (Some c),
             with_counts (<[c:=n + 1]> (reference_counts p)) p).
Proof.
  intros Hd Hr Hc Hn. unfold Handle.slice. rewrite Hd, Hr. simpl.
  by rewrite (new_cell _ _ _ _ _ Hc Hn).
Qed.

Lemma slice_length_given {dm : DataModel} (L idx len : Z) :
  0 <= len → is_int len →
  to_size (Handle.slice_length L idx len) = len.
Proof.
  unfold Handle.slice_length, is_int. intros H0 Hi.
  destruct (Z.ltb_spec len 0); [lia|].
  rewrite (to_size_small len) by lia.
  rewrite to_int_small by done.
  apply to_size_small; lia.
Qed.

Lemma slice_length_remainder {dm : DataModel} (L idx len : Z) :
  len < 0 → is_int idx → 0 <= idx <= L → L - idx <= INT_MAX →
  to_size (Handle.slice_length L idx len) = L - idx.
Proof.
  unfold Handle.slice_length. intros Hneg [_ Hi] Hidx Hfit.
  destruct (Z.ltb_spec len 0); [|lia].
  rewrite (to_size_small idx) by lia.
  rewrite (to_size_small (L - idx)) by lia.
  rewrite to_int_small by (unfold is_int, INT_MIN, INT_MAX in *; lia).
  apply to_size_small; lia.
Qed.

Lemma slice_length_remainder_ILP32 (L idx len : Z) :
  len < 0 → is_int idx → 0 <= idx <= L → is_size (dm:=ILP32) L →
  to_size (dm:=ILP32) (Handle.slice_length (dm:=ILP32) L idx len) = L - idx.
Proof.
  unfold Handle.slice_length, is_size, to_size, to_int, size_bits.
  intros Hneg [_ Hi] Hidx HL. unfold INT_MAX in Hi.
  destruct (Z.ltb_spec len 0); [|lia].
  change (2 ^ 31) with 2147483648 in *. change (2 ^ 32) with 4294967296 in *.
  rewrite (Z.mod_small idx) by lia.
  rewrite (Z.mod_small (L - idx)) by lia.
  Z.div_mod_to_equations. lia.
Qed.

(** ** Handles *)

(** C5.  Slicing a live handle of size [L] over [base] at [idx], [length]
    with [0 <= idx], [0 <= length] and [idx + length <= L] returns a handle
    whose data pointer is [base + idx] and whose size is [length], on the
    same count cell, and its construction raises that cell by exactly
    one. *)
Theorem slice_view_shares_count {dm : DataModel} (p : AudioBufferPool)
    (h : AudioBufferHandle) (b : nat) (base L : Z) (c : nat) (n idx len : Z) :
  Handle.data h = Ptr b base → Handle.size h = L →
  _reference_count h = Some c →
  reference_counts p !! c = Some n → n < INT_MAX →
  is_int idx → is_int len →
  0 <= idx → 0 <= len → idx + len <= L →
  ∃ h' p',
    Handle.slice h idx len p = Returns (h', p')
    ∧ Handle.data h' = Ptr b (base + idx)
    ∧ Handle.size h' = len
    ∧ _reference_count h' = _reference_count h
    ∧ reference_counts p' = <[c:=n + 1]> (reference_counts p)
    ∧ Handle.reference_count h' p' = Returns (n + 1, p').
Proof.
  intros Hd HL Hr Hc Hn Hidx Hlen H0 H1 Hfit.
  eexists _, _. split.
  { by apply slice_cell with (1 := Hd) (2 := Hr) (3 := Hc). }
  simpl. repeat split; try done.
  - by apply slice_length_given.
  - apply load_count_cell. simpl.
    apply list_lookup_insert_eq. by eapply lookup_lt_Some.
Qed.

Lemma slice_view_shares_count_witness :
  ∃ h' p',
    Handle.slice (dm:=LP64) handle_A 32 16 pool_ABC = Returns (h', p')
    ∧ Handle.data h' = Ptr 1 (0 + 32)
    ∧ Handle.size h' = 16
    ∧ _reference_count h' = _reference_count handle_A
    ∧ reference_counts p' = <[0%nat:=1 + 1]> (reference_counts pool_ABC)
    ∧ Handle.reference_count h' p' = Returns (1 + 1, p').
Proof.
  apply (slice_view_shares_count (dm:=LP64) pool_ABC handle_A 1 0 64 0 1 32 16);
    try reflexivity; unfold is_int, INT_MIN, INT_MAX; lia.
Defined.

(** C6.  Copy-constructing from a live handle raises the shared count by
    one and the copy has the data pointer, the length and the count cell
    of the original.  Move-constructing leaves every count as it was: the
    new handle takes the fields of the original, the original is left
    with null pointers, and destroying it changes no count. *)
Theorem copy_shares_move_transfers (p : AudioBufferPool)
    (h : AudioBufferHandle) (c : nat) (n : Z) :
  _reference_count h = Some c →
  reference_counts p !! c = Some n → n < INT_MAX →
  (∃ h' p',
     Handle.copy h p = Returns (h', p')
     ∧ reference_counts p' = <[c:=n + 1]> (reference_counts p)
     ∧ Handle.data h' = Handle.data h
     ∧ Handle.size h' = Handle.size h
     ∧ _reference_count h' = _reference_count h)
  ∧ (∃ h' h0,
       Handle.move h p = Returns ((h', h0), p)
       ∧ h' = h
       ∧ _reference_count h0 = None
       ∧ Handle.data h0 = nullptr
       ∧ Handle.destroy h0 p = Returns (tt, p)).
Proof.
  intros Hr Hc Hn. split.
  - eexists _, _. split.
    { unfold Handle.copy, mbind, M_bind. rewrite Hr.
      by rewrite (incr_count_cell _ _ _ Hc Hn). }
    by repeat split.
  - eexists _, _. split; [reflexivity|].
    repeat split. apply handle_eta.
Qed.

Lemma copy_shares_move_transfers_witness :
  (∃ h' p',
     Handle.copy handle_A pool_ABC = Returns (h', p')
     ∧ reference_counts p' = <[0%nat:=1 + 1]> (reference_counts pool_ABC)
     ∧ Handle.data h' = Handle.data handle_A
     ∧ Handle.size h' = Handle.size handle_A
     ∧ _reference_count h' = _reference_count handle_A)
  ∧ (∃ h' h0,
       Handle.move handle_A pool_ABC = Returns ((h', h0), pool_ABC)
       ∧ h' = handle_A
       ∧ _reference_count h0 = None
       ∧ Handle.data h0 = nullptr
       ∧ Handle.destroy h0 pool_ABC = Returns (tt, pool_ABC)).
Proof.
  apply (copy_shares_move_transfers pool_ABC handle_A 0 1);
    [reflexivity | reflexivity | unfold INT_MAX; lia].
Defined.

(** C7.  [release] on a live handle lowers the count of its slot by
    exactly one, and destroying the released handle afterwards lowers
    nothing: over both steps the count has gone down by one. *)
Theorem release_then_destroy_decrements_once (p : AudioBufferPool)
    (h : AudioBufferHandle) (c : nat) (n : Z) :
  _reference_count h = Some c →
  reference_counts p !! c = Some n → INT_MIN < n →
  ∃ h' p',
    Handle.release h p = Returns (h', p')
    ∧ reference_counts p' = <[c:=n - 1]> (reference_counts p)
    ∧ reference_counts p' !! c = Some (n - 1)
    ∧ Handle.destroy h' p' = Returns (tt, p').
Proof.
  intros Hr Hc Hn. eexists _, _. split.
  { unfold Handle.release, mbind, M_bind. rewrite Hr.
    by rewrite (decr_count_cell _ _ _ Hc Hn). }
  simpl. repeat split.
  apply list_lookup_insert_eq. by eapply lookup_lt_Some.
Qed.

Lemma release_then_destroy_decrements_once_witness :
  ∃ h' p',
    Handle.release handle_C pool_ABC = Returns (h', p')
    ∧ reference_counts p' = <[2%nat:=1 - 1]> (reference_counts pool_ABC)
    ∧ reference_counts p' !! 2%nat = Some (1 - 1)
    ∧ Handle.destroy h' p' = Returns (tt, p').
Proof.
  apply (release_then_destroy_decrements_once pool_ABC handle_C 2 1);
    [reflexivity | reflexivity | unfold INT_MIN; lia].
Defined.

(** C10, as amended.  For a live handle of size [L], [idx] in [[0, L)]
    with [L - idx <= INT_MAX], and any negative [length], [slice] returns
    what it returns when the remainder [L - idx] is passed: a view of size
    [L - idx]. *)
Theorem slice_negative_length_is_remainder {dm : DataModel}
    (p : AudioBufferPool) (h : AudioBufferHandle) (b : nat) (base : Z)
    (c : nat) (n idx len : Z) :
  Handle.data h = Ptr b base → _reference_count h = Some c →
  reference_counts p !! c = Some n → n < INT_MAX →
  is_int idx → is_int len →
  0 <= idx < Handle.size h → len < 0 →
  Handle.size h - idx <= INT_MAX →
  ∃ h' p',
    Handle.slice h idx len p = Returns (h', p')
    ∧ Handle.size h' = Handle.size h - idx
    ∧ Handle.slice h idx (Handle.size h - idx) p = Returns (h', p').
Proof.
  unfold Handle.size, Handle.data. intros Hd Hr Hc Hn Hidx Hlen Hin Hneg Hfit.
  eexists _, _. split.
  { by apply slice_cell with (1 := Hd) (2 := Hr) (3 := Hc). }
  simpl. split.
  - apply slice_length_remainder; try done. lia.
  - rewrite (slice_cell _ _ _ _ _ _ _ _ Hd Hr Hc Hn).
    rewrite (slice_length_remainder _ _ len) by (try done; lia).
    rewrite slice_length_given; try done; [lia|].
    unfold is_int, INT_MIN in *. lia.
Qed.

Lemma slice_negative_length_is_remainder_witness :
  ∃ h' p',
    Handle.slice (dm:=LP64) handle_A 32 (-7) pool_ABC = Returns (h', p')
    ∧ Handle.size h' = Handle.size handle_A - 32
    ∧ Handle.slice (dm:=LP64) handle_A 32 (Handle.size handle_A - 32) pool_ABC
      = Returns (h', p').
Proof.
  apply (slice_negative_length_is_remainder (dm:=LP64)
           pool_ABC handle_A 1 0 0 1 32 (-7));
    try reflexivity; unfold is_int, INT_MIN, INT_MAX, Handle.size; simpl; lia.
Defined.

(** Where [std::size_t] is 32 bits wide the conversions of [slice] undo
    each other and the view has size [L - idx] for every [L]. *)
Lemma slice_negative_length_ILP32 (p : AudioBufferPool)
    (h : AudioBufferHandle) (b : nat) (base : Z) (c : nat) (n idx len : Z) :
  Handle.data h = Ptr b base → _reference_count h = Some c →
  reference_counts p !! c = Some n → n < INT_MAX →
  is_size (dm:=ILP32) (Handle.size h) → is_int idx →
  0 <= idx < Handle.size h → len < 0 →
  ∃ h' p',
    Handle.slice (dm:=ILP32) h idx len p = Returns (h', p')
    ∧ Handle.size h' = Handle.size h - idx.
Proof.
  unfold Handle.size, Handle.data. intros Hd Hr Hc Hn HL Hidx Hin Hneg.
  eexists _, _. split.
  { by apply slice_cell with (1 := Hd) (2 := Hr) (3 := Hc). }
  simpl. apply slice_length_remainder_ILP32; try done. lia.
Qed.

(** C10, as stated, fails where [std::size_t] is 64 bits wide: on a handle
    of size 2^31 the remainder does not fit the [int] parameter, and
    [slice(0, -1)] returns a view of size 2^64 - 2^31. *)
Lemma slice_negative_length_counterexample :
  ∃ h' p',
    Handle.slice (dm:=LP64) handle_wide 0 (-1) pool_wide = Returns (h', p')
    ∧ Handle.size h' = 2 ^ 64 - 2 ^ 31
    ∧ Handle.size h' ≠ Handle.size handle_wide - 0.
Proof.
  eexists _, _. split.
  { apply (slice_cell (dm:=LP64) pool_wide handle_wide 1 0 0 1 0 (-1));
      [reflexivity | reflexivity | reflexivity | unfold INT_MAX; lia]. }
  split; [reflexivity | discriminate].
Qed.

(** ** The pool *)

Lemma allocate_at_cell {dm : DataModel} (p : AudioBufferPool) (i : nat) (c : Z) :
  reference_counts p !! i = Some c →
  Pool.allocate_at i p
  = Returns
      (mkHandle
         (Ptr (data_blk p) (to_int (to_size (Z.of_nat i * buffer_size p))))
         (buffer_size p) (Some i),
       with_counts (<[i:=1]> (reference_counts p))
         (if Z.of_nat i >? _max_val p then with_max_val (Z.of_nat i) p
          else p)).
Proof.
  intros Hc. unfold Pool.allocate_at, mbind, M_bind, gets. simpl.
  assert (∀ q : AudioBufferPool,
    reference_counts q = reference_counts p →
    buffer_size q = buffer_size p → data_blk q = data_blk p →
    match store_count (Some i) 0 q with
    | Returns (_, p') =>
        Handle.new
          (Ptr (data_blk p') (to_int (to_size (Z.of_nat i * buffer_size p'))))
          (buffer_size p') i p'
    | Terminates => Terminates
    | Undefined => Undefined
    end
    = Returns
        (mkHandle
           (Ptr (data_blk p) (to_int (to_size (Z.of_nat i * buffer_size p))))
           (buffer_size p) (Some i),
         with_counts (<[i:=1]> (reference_counts p)) q)) as Hbody.
  { intros q Hq Hbs Hblk.
    rewrite (store_count_cell q i c 0) by (by rewrite Hq).
    rewrite (new_cell _ _ _ i 0); simpl.
    - rewrite Hq, Hbs, Hblk. unfold with_counts. simpl.
      by rewrite list_insert_insert_eq.
    - rewrite Hq. apply list_lookup_insert_eq. by eapply lookup_lt_Some.
    - unfold INT_MAX. lia. }
  destruct (Z.of_nat i >? _max_val p); simpl; by apply Hbody.
Qed.

Lemma allocate_loop_find {dm : DataModel} (p : AudioBufferPool) (l : list Z)
    (i : nat) :
  drop i (reference_counts p) = l →
  Pool.allocate_loop (length l) i p
  = match list_find (λ c, c < 1) l with
    | Some (k, _) => Pool.allocate_at (i + k) p
    | None => Terminates
    end.
Proof.
  revert i. induction l as [|x l IH]; intros i Hdrop; [done|].
  assert (reference_counts p !! i = Some x) as Hx.
  { rewrite <- (Nat.add_0_r i), <- lookup_drop, Hdrop. done. }
  assert (drop (S i) (reference_counts p) = l) as Hrest.
  { rewrite (drop_S _ _ _ Hx) in Hdrop. by injection Hdrop. }
  simpl. unfold mbind at 1, M_bind at 1.
  rewrite (load_count_cell _ _ _ Hx).
  destruct (Z.ltb_spec x 1) as [Hlt|Hge].
  - rewrite decide_True by done. simpl. by rewrite Nat.add_0_r.
  - rewrite decide_False by lia. rewrite (IH (S i) Hrest).
    destruct (list_find _ l) as [[k y]|]; simpl; [|done].
    by rewrite Nat.add_succ_r.
Qed.

Lemma allocate_find {dm : DataModel} (p : AudioBufferPool) :
  Pool.allocate p
  = match list_find (λ c, c < 1) (reference_counts p) with
    | Some (k, _) => Pool.allocate_at k p
    | None => Terminates
    end.
Proof.
  unfold Pool.allocate, mbind, M_bind, gets.
  by rewrite (allocate_loop_find p (reference_counts p) 0).
Qed.

(** C1.  When no slot has a count below 1, [allocate] returns no handle
    and reaches [std::terminate]; when some slot has a count below 1 it
    returns normally. *)
Theorem allocate_exhaustion_terminates {dm : DataModel} (p : AudioBufferPool) :
  (Forall (λ c, ¬ c < 1) (reference_counts p) →
   Pool.allocate p = Terminates)
  ∧ (Exists (λ c, c < 1) (reference_counts p) →
     ∃ h p', Pool.allocate p = Returns (h, p')).
Proof.
  rewrite allocate_find. split.
  - intros Hfull. by rewrite (proj2 (list_find_None _ _) Hfull).
  - intros (x & Hin & Hx)%Exists_exists.
    destruct (list_find_elem_of (λ c, c < 1) _ x Hin Hx) as [[k y] Hfind].
    rewrite Hfind. apply list_find_Some in Hfind as (Hk & _ & _).
    rewrite (allocate_at_cell _ _ _ Hk). eauto.
Qed.

Lemma allocate_exhaustion_terminates_witness :
  Pool.allocate (dm:=LP64) pool_full = Terminates
  ∧ ∃ h p', Pool.allocate (dm:=LP64) pool_ABC = Returns (h, p').
Proof.
  split.
  - apply (proj1 (allocate_exhaustion_terminates (dm:=LP64) pool_full)).
    simpl. repeat constructor; lia.
  - apply (proj2 (allocate_exhaustion_terminates (dm:=LP64) pool_ABC)).
    simpl. do 3 apply Exists_cons_tl. apply Exists_cons_hd. lia.
Defined.

(** C4.  When some slot has a count below 1, [allocate] returns a handle
    on the lowest-index such slot, and [reference_count()] on that handle
    reads 1 right after the call. *)
Theorem allocate_first_free_count_one {dm : DataModel} (p : AudioBufferPool) :
  Exists (λ c, c < 1) (reference_counts p) →
  ∃ (i : nat) (c : Z) h p',
    reference_counts p !! i = Some c ∧ c < 1
    ∧ (∀ j c', reference_counts p !! j = Some c' → (j < i)%nat → ¬ c' < 1)
    ∧ Pool.allocate p = Returns (h, p')
    ∧ _reference_count h = Some i
    ∧ Handle.data h
      = Ptr (data_blk p) (to_int (to_size (Z.of_nat i * buffer_size p)))
    ∧ Handle.size h = buffer_size p
    ∧ reference_counts p' = <[i:=1]> (reference_counts p)
    ∧ Handle.reference_count h p' = Returns (1, p').
Proof.
  intros (x & Hin & Hx)%Exists_exists.
  destruct (list_find_elem_of (λ c, c < 1) _ x Hin Hx) as [[k y] Hfind].
  rewrite allocate_find, Hfind.
  apply list_find_Some in Hfind as (Hk & Hy & Hleast).
  rewrite (allocate_at_cell _ _ _ Hk).
  eexists k, y, _, _. repeat split; try done.
  apply load_count_cell. simpl.
  apply list_lookup_insert_eq. by eapply lookup_lt_Some.
Qed.

Lemma allocate_first_free_count_one_witness :
  ∃ (i : nat) (c : Z) h p',
    reference_counts pool_ABC !! i = Some c ∧ c < 1
    ∧ (∀ j c', reference_counts pool_ABC !! j = Some c' → (j < i)%nat →
               ¬ c' < 1)
    ∧ Pool.allocate (dm:=LP64) pool_ABC = Returns (h, p')
    ∧ _reference_count h = Some i
    ∧ Handle.data h
      = Ptr (data_blk pool_ABC)
            (to_int (to_size (dm:=LP64) (Z.of_nat i * buffer_size pool_ABC)))
    ∧ Handle.size h = buffer_size pool_ABC
    ∧ reference_counts p' = <[i:=1]> (reference_counts pool_ABC)
    ∧ Handle.reference_count h p' = Returns (1, p').
Proof.
  apply (allocate_first_free_count_one (dm:=LP64) pool_ABC).
  simpl. do 3 apply Exists_cons_tl. apply Exists_cons_hd. lia.
Defined.

Lemma with_data_same (p : AudioBufferPool) : with_data (data p) p = p.
Proof. by destruct p. Qed.

Lemma store_sample_cell (p : AudioBufferPool) (o : nat) (x : float) :
  (o < length (data p))%nat →
  store_sample (Ptr (data_blk p) (Z.of_nat o)) x p
  = Returns (tt, with_data (<[o:=x]> (data p)) p).
Proof.
  intros Ho. unfold store_sample, load_sample, mbind, M_bind, gets, modify.
  rewrite decide_True by (split; [done|lia]).
  rewrite Nat2Z.id.
  destruct (lookup_lt_is_Some_2 (data p) o Ho) as [y ->]. done.
Qed.

Lemma load_sample_cell (p : AudioBufferPool) (o : Z) (x : float) :
  0 <= o → data p !! Z.to_nat o = Some x →
  load_sample (Ptr (data_blk p) o) p = Returns (x, p).
Proof.
  intros Ho Hx. unfold load_sample.
  rewrite decide_True by done. by rewrite Hx.
Qed.

(** [fill] over a range inside the array writes [x] to every cell of the
    range and to no other cell. *)
Lemma fill_region (n : nat) (p : AudioBufferPool) (o : nat) (x : float) :
  (o + n ≤ length (data p))%nat →
  ∃ d,
    Handle.fill (Ptr (data_blk p) (Z.of_nat o)) n x p
    = Returns (tt, with_data d p)
    ∧ length d = length (data p)
    ∧ (∀ j, (o ≤ j < o + n)%nat → d !! j = Some x)
    ∧ (∀ j, (j < o ∨ o + n ≤ j)%nat → d !! j = data p !! j).
Proof.
  revert p o. induction n as [|n IH]; intros p o Hfit.
  - exists (data p). simpl. unfold mret, M_ret.
    rewrite with_data_same. split_and!; [done..|lia|done].
  - simpl. unfold mbind, M_bind.
    rewrite store_sample_cell by lia.
    replace (Z.of_nat o + 1) with (Z.of_nat (S o)) by lia.
    destruct (IH (with_data (<[o:=x]> (data p)) p) (S o))
      as (d & Hrun & Hlen & Hin & Hout).
    { simpl. rewrite length_insert. lia. }
    simpl in *. exists d. rewrite Hrun. rewrite length_insert in Hlen.
    repeat split; [done|..].
    + intros j Hj. destruct (decide (j = o)) as [->|Hne].
      * rewrite Hout by lia. apply list_lookup_insert_eq. lia.
      * apply Hin. lia.
    + intros j Hj. rewrite Hout by lia.
      apply list_lookup_insert_ne. lia.
Qed.

Lemma pool_wf_slot {dm : DataModel} (p : AudioBufferPool) (i : nat) (c : Z) :
  pool_wf p → reference_counts p !! i = Some c →
  to_int (to_size (Z.of_nat i * buffer_size p)) = Z.of_nat i * buffer_size p
  ∧ 0 <= Z.of_nat i * buffer_size p
  ∧ (Z.to_nat (Z.of_nat i * buffer_size p) + Z.to_nat (buffer_size p)
     ≤ length (data p))%nat.
Proof.
  intros [Hcs Hbs Hidx Hdata] Hc. unfold number_of_buffers in *.
  apply lookup_lt_Some in Hc. rewrite Hcs in Hc.
  assert (0 <= Z.of_nat i * buffer_size p <= 7 * buffer_size p) by nia.
  split; [|split; [lia|]].
  - rewrite to_size_small by lia.
    apply to_int_small. unfold is_int, INT_MIN, INT_MAX in *. lia.
  - rewrite Hdata. lia.
Qed.

(** [fill] over a range that ends beyond the array is undefined. *)
Lemma fill_overrun (n : nat) (p : AudioBufferPool) (o : nat) (x : float) :
  (o ≤ length (data p))%nat → (length (data p) < o + n)%nat →
  Handle.fill (Ptr (data_blk p) (Z.of_nat o)) n x p = Undefined.
Proof.
  revert p o. induction n as [|n IH]; intros p o Hin Hover; [lia|].
  simpl. unfold mbind, M_bind.
  destruct (decide (o < length (data p))%nat) as [Hlt|Hge].
  - rewrite store_sample_cell by done.
    replace (Z.of_nat o + 1) with (Z.of_nat (S o)) by lia.
    apply (IH (with_data (<[o:=x]> (data p)) p) (S o));
      simpl; rewrite length_insert; lia.
  - unfold store_sample, load_sample, mbind, M_bind.
    rewrite decide_True by (split; [done|lia]).
    rewrite Nat2Z.id, lookup_ge_None_2; [done|lia].
Qed.

Lemma allocate_clear_overrun {dm : DataModel} (p p1 : AudioBufferPool)
    (h : AudioBufferHandle) (o : nat) :
  Pool.allocate p = Returns (h, p1) →
  _data h = Ptr (data_blk p1) (Z.of_nat o) →
  (o ≤ length (data p1))%nat →
  (length (data p1) < o + Z.to_nat (_length h))%nat →
  Pool.allocate_clear p = Undefined.
Proof.
  intros Halloc Hd Hin Hover.
  unfold Pool.allocate_clear, mbind, M_bind. rewrite Halloc.
  unfold Handle.clear, Handle.end_, Handle.begin. rewrite Hd.
  unfold ptr_add. by rewrite fill_overrun.
Qed.

Lemma allocate_clear_index_wraps {dm : DataModel} (p : AudioBufferPool)
    (i : nat) (c : Z) :
  reference_counts p !! i = Some c → c < 1 →
  (∀ j y, reference_counts p !! j = Some y → (j < i)%nat → ¬ y < 1) →
  to_int (to_size (Z.of_nat i * buffer_size p)) < 0 →
  0 < buffer_size p →
  Pool.allocate_clear p = Undefined.
Proof.
  intros Hi Hc Hleast Hneg Hbs.
  assert (list_find (λ c, c < 1) (reference_counts p) = Some (i, c)) as Hfind
    by (by apply list_find_Some).
  unfold Pool.allocate_clear, mbind, M_bind.
  rewrite allocate_find, Hfind, (allocate_at_cell _ _ _ Hi).
  unfold Handle.clear, Handle.end_, Handle.begin, ptr_add.
  cbv beta iota delta [_data _length].
  destruct (Z.to_nat (buffer_size p)) as [|m] eqn:Hm; [lia|].
  unfold Handle.fill, store_sample, load_sample, mbind, M_bind.
  rewrite decide_False; [done|]. intros [_ Hpos]. lia.
Qed.

(** C8, as stated, fails.  The pool that the constructor makes for the
    buffer size 2^61 + 8 has every slot free and storage of 64 samples,
    and [allocate_clear] on it is undefined, [clear] running past the end
    of the storage.  On the pool with slots of 2^31 samples the storage
    holds all eight slots, but the [int] offset of the second slot is
    negative, and [allocate_clear] is undefined there as well. *)
Lemma allocate_clear_counterexample :
  (Pool.new (dm:=LP64) (2 ^ 61 + 8) = Returns (tt, pool_wrapped)
   ∧ Exists (λ c, c < 1) (reference_counts pool_wrapped)
   ∧ Pool.allocate_clear (dm:=LP64) pool_wrapped = Undefined)
  ∧ (Exists (λ c, c < 1) (reference_counts pool_wide)
     ∧ Pool.allocate_clear (dm:=LP64) pool_wide = Undefined).
Proof.
  split; [split; [vm_compute; reflexivity|split]|split].
  - apply Exists_cons_hd. lia.
  - apply (allocate_clear_overrun pool_wrapped
             (with_counts [1; 0; 0; 0; 0; 0; 0; 0] pool_wrapped)
             (mkHandle (Ptr 1 0) (2 ^ 61 + 8) (Some 0%nat)) 0).
    + vm_compute. reflexivity.
    + reflexivity.
    + change (0 ≤ 64)%nat. lia.
    + change (64 < 0 + Z.to_nat 2305843009213693960)%nat. lia.
  - apply Exists_cons_tl, Exists_cons_hd. lia.
  - apply (allocate_clear_index_wraps pool_wide 1 0).
    + reflexivity.
    + lia.
    + intros j y Hj Hlt. destruct j as [|j]; [|lia].
      injection Hj as <-. lia.
    + change (buffer_size pool_wide) with (2 ^ 31). by vm_compute.
    + change (buffer_size pool_wide) with (2 ^ 31). lia.
Qed.

(** C8, as amended.  On a well-formed pool with a free slot,
    [allocate_clear] returns the handle that [allocate] returns, on the
    first free slot [i], at offset [i * buffer_size] and of size
    [buffer_size], with the counts [allocate] leaves, and every sample of
    that view reads as zero. *)
Theorem allocate_clear_reads_zero {dm : DataModel} (p : AudioBufferPool) :
  pool_wf p →
  Exists (λ c, c < 1) (reference_counts p) →
  ∃ (i : nat) (c : Z) h p1 p',
    reference_counts p !! i = Some c ∧ c < 1
    ∧ (∀ j c', reference_counts p !! j = Some c' → (j < i)%nat → ¬ c' < 1)
    ∧ Pool.allocate p = Returns (h, p1)
    ∧ Pool.allocate_clear p = Returns (h, p')
    ∧ _reference_count h = Some i
    ∧ Handle.data h = Ptr (data_blk p) (Z.of_nat i * buffer_size p)
    ∧ Handle.size h = buffer_size p
    ∧ reference_counts p' = reference_counts p1
    ∧ ∀ k, 0 <= k < buffer_size p →
           Handle.at_ h k p' = Returns (float_zero, p').
Proof.
  intros Hwf (x & Hin & Hx)%Exists_exists.
  destruct (list_find_elem_of (λ c, c < 1) _ x Hin Hx) as [[i y] Hfind].
  unfold Pool.allocate_clear, mbind at 1, M_bind at 1.
  rewrite allocate_find, Hfind.
  apply list_find_Some in Hfind as (Hi & Hy & Hleast).
  rewrite (allocate_at_cell _ _ _ Hi).
  destruct (pool_wf_slot p i y Hwf Hi) as (-> & Hpos & Hfit).
  set (p1 := with_counts _ _).
  assert (data p1 = data p ∧ data_blk p1 = data_blk p) as [Hd1 Hb1].
  { unfold p1. by destruct (_ >? _). }
  clearbody p1.
  destruct (fill_region (Z.to_nat (buffer_size p)) p1
              (Z.to_nat (Z.of_nat i * buffer_size p)) float_zero)
    as (d & Hrun & Hlen & Hzero & _).
  { by rewrite Hd1. }
  rewrite Z2Nat.id, Hb1 in Hrun by done.
  unfold mbind, M_bind, Handle.clear, Handle.end_, Handle.begin. simpl.
  rewrite Hrun. simpl.
  exists i, y. eexists _, p1, _. split_and!; try done.
  unfold Handle.at_. simpl. intros k Hk.
  rewrite <- Hb1.
  apply (load_sample_cell (with_data d p1)); [lia|]. simpl.
  apply Hzero. lia.
Qed.

Lemma pool_ABC_wf : pool_wf pool_ABC.
Proof.
  split; [reflexivity | simpl; lia
         | unfold number_of_buffers, INT_MAX; simpl; lia | reflexivity].
Defined.

Lemma pool_ones_wf : pool_wf pool_ones.
Proof.
  split; [reflexivity | simpl; lia
         | unfold number_of_buffers, INT_MAX; simpl; lia | reflexivity].
Defined.

Lemma allocate_clear_reads_zero_witness :
  ∃ (i : nat) (c : Z) h p1 p',
    reference_counts pool_ones !! i = Some c ∧ c < 1
    ∧ (∀ j c', reference_counts pool_ones !! j = Some c' → (j < i)%nat →
               ¬ c' < 1)
    ∧ Pool.allocate (dm:=LP64) pool_ones = Returns (h, p1)
    ∧ Pool.allocate_clear (dm:=LP64) pool_ones = Returns (h, p')
    ∧ _reference_count h = Some i
    ∧ Handle.data h
      = Ptr (data_blk pool_ones) (Z.of_nat i * buffer_size pool_ones)
    ∧ Handle.size h = buffer_size pool_ones
    ∧ reference_counts p' = reference_counts p1
    ∧ ∀ k, 0 <= k < buffer_size pool_ones →
           Handle.at_ h k p' = Returns (float_zero, p').
Proof.
  apply (allocate_clear_reads_zero (dm:=LP64) pool_ones pool_ones_wf).
  simpl. apply Exists_cons_tl. apply Exists_cons_hd. lia.
Defined.

(** [reserve] returns exactly when the array fits the largest object
    size, and then with the pool below. *)
Lemma reserve_returns {dm : DataModel} (n : Z) (p : AudioBufferPool) :
  sizeof_float * to_size (n * buffer_size p) <= PTRDIFF_MAX →
  Pool.reserve n p
  = Returns (tt,
      mkPool (buffer_size p)
             (resize (Z.to_nat n) 0 (reference_counts p))
             n
             (replicate (Z.to_nat (to_size (n * buffer_size p))) float_zero)
             (S (data_blk p))
             (_max_val p)).
Proof.
  intros Hfit. unfold Pool.reserve.
  by destruct (Z.leb_spec (sizeof_float * to_size (n * buffer_size p))
                 PTRDIFF_MAX); [|lia].
Qed.


Lemma reserve_inv {dm : DataModel} (n : Z) (p p' : AudioBufferPool) (u : unit) :
  Pool.reserve n p = Returns (u, p') →
  sizeof_float * to_size (n * buffer_size p) <= PTRDIFF_MAX
  ∧ p' = mkPool (buffer_size p)
           (resize (Z.to_nat n) 0 (reference_counts p))
           n
           (replicate (Z.to_nat (to_size (n * buffer_size p))) float_zero)
           (S (data_blk p))
           (_max_val p).
Proof.
  unfold Pool.reserve.
  destruct (Z.leb_spec (sizeof_float * to_size (n * buffer_size p))
              PTRDIFF_MAX); [|done].
  by intros [= <-].
Qed.

Lemma set_buffer_size_inv {dm : DataModel} (p p' : AudioBufferPool) (bs : Z)
    (u : unit) :
  Pool.set_buffer_size bs p = Returns (u, p') →
  sizeof_float * to_size (number_of_buffers * bs) <= PTRDIFF_MAX
  ∧ p' = mkPool bs
           (resize (Z.to_nat number_of_buffers) 0 (reference_counts p))
           number_of_buffers
           (replicate (Z.to_nat (to_size (number_of_buffers * bs))) float_zero)
           (S (data_blk p))
           (_max_val p).
Proof. unfold Pool.set_buffer_size. by intros [? ->]%reserve_inv. Qed.

Lemma new_inv {dm : DataModel} (bs : Z) (p : AudioBufferPool) (u : unit) :
  Pool.new bs = Returns (u, p) →
  sizeof_float * to_size (number_of_buffers * bs) <= PTRDIFF_MAX
  ∧ p = mkPool bs (replicate 8 0) number_of_buffers
          (replicate (Z.to_nat (to_size (number_of_buffers * bs))) float_zero)
          1 (to_size (-1)).
Proof. unfold Pool.new. by intros [? ->]%reserve_inv. Qed.

(** The constructor establishes [pool_wf] for every buffer size whose
    eight slots can be indexed by an [int], and [allocate] keeps it. *)
Lemma new_wf {dm : DataModel} (bs : Z) (p : AudioBufferPool) :
  0 <= bs → number_of_buffers * bs <= INT_MAX →
  Pool.new bs = Returns (tt, p) →
  pool_wf p ∧ reference_counts p = replicate 8 0 ∧ buffer_size p = bs.
Proof.
  intros H0 Hmax [_ ->]%new_inv.
  split; [|done]. split; simpl; try done.
  rewrite length_replicate. f_equal.
  apply to_size_small. unfold number_of_buffers in *. lia.
Qed.

Lemma allocate_wf {dm : DataModel} (p p' : AudioBufferPool)
    (h : AudioBufferHandle) :
  pool_wf p → Pool.allocate p = Returns (h, p') → pool_wf p'.
Proof.
  intros [Hcs Hbs Hidx Hdata]. rewrite allocate_find.
  destruct (list_find _ _) as [[k y]|] eqn:Hfind; [|done].
  apply list_find_Some in Hfind as (Hk & _ & _).
  rewrite (allocate_at_cell _ _ _ Hk). intros [= <- <-].
  destruct (_ >? _); split; simpl; by rewrite ?length_insert.
Qed.

Lemma set_buffer_size_wf {dm : DataModel} (p p' : AudioBufferPool) (bs : Z) :
  pool_wf p → 0 <= bs → number_of_buffers * bs <= INT_MAX →
  Pool.set_buffer_size bs p = Returns (tt, p') → pool_wf p'.
Proof.
  intros [Hcs _ _ _] H0 Hmax [_ ->]%set_buffer_size_inv.
  split; simpl; try done.
  - by rewrite length_resize.
  - rewrite length_replicate. f_equal.
    apply to_size_small. unfold number_of_buffers in *. lia.
Qed.

(** The scenario state used in the examples is the state the code
    reaches: a pool of buffer size 64 after three calls of [allocate]. *)
Lemma allocate_ABC_state :
  run_new (dm:=LP64) 64 (allocate_ABC (dm:=LP64))
  = Returns ((handle_A, handle_B, handle_C), pool_ABC).
Proof. vm_compute. reflexivity. Qed.

(** The wide state is the one reached by constructing a pool of buffer
    size 2^31 and allocating once. *)
Lemma allocate_wide_state :
  run_new (dm:=LP64) (2 ^ 31) (Pool.allocate (dm:=LP64))
  = Returns (handle_wide, pool_wide).
Proof.
  unfold run_new, Pool.new.
  rewrite reserve_returns by (vm_compute; discriminate).
  rewrite allocate_find. simpl list_find. cbv iota beta.
  erewrite allocate_at_cell by reflexivity.
  unfold handle_wide, pool_wide, with_counts. simpl reference_counts.
  f_equal.
Qed.

Lemma end_to_end_counts :
  result (run_new (dm:=LP64) 64 (end_to_end (dm:=LP64)))
  = Returns ([1; 1; 1], 2, 1, Some 2%nat).
Proof. vm_compute. reflexivity. Qed.

(** ** Assignment and reconfiguration *)

Lemma assign_copy_cell (p : AudioBufferPool) (this rhs : AudioBufferHandle)
    (c : nat) (n : Z) :
  _reference_count rhs = Some c →
  reference_counts p !! c = Some n → n < INT_MAX →
  Handle.assign_copy this rhs p
  = Returns (rhs, with_counts (<[c:=n + 1]> (reference_counts p)) p).
Proof.
  intros Hr Hc Hn. unfold Handle.assign_copy, mbind, M_bind. simpl.
  rewrite Hr, (incr_count_cell _ _ _ Hc Hn).
  by rewrite <- Hr, handle_eta.
Qed.

(** Neither assignment touches the count of the slot the target held:
    with the target on slot [s] and the source on another slot [t], the
    count of [s] after the assignment is the count before it. *)
Lemma assign_target_count_unchanged (p : AudioBufferPool)
    (this rhs : AudioBufferHandle) (s t : nat) (m n : Z) :
  _reference_count this = Some s → _reference_count rhs = Some t → s ≠ t →
  reference_counts p !! s = Some m →
  reference_counts p !! t = Some n → n < INT_MAX →
  (∃ h' p', Handle.assign_copy this rhs p = Returns (h', p')
            ∧ reference_counts p' !! s = Some m
            ∧ reference_counts p' !! t = Some (n + 1))
  ∧ (∃ h' rhs' p', Handle.assign_move this rhs p = Returns ((h', rhs'), p')
                   ∧ reference_counts p' !! s = Some m
                   ∧ reference_counts p' !! t = Some n
                   ∧ _reference_count rhs' = None).
Proof.
  intros Hs Ht Hne Hm Hn Hmax. split.
  - eexists _, _. split; [by apply assign_copy_cell with (1 := Ht)|].
    simpl. split.
    + by rewrite list_lookup_insert_ne.
    + apply list_lookup_insert_eq. by eapply lookup_lt_Some.
  - eexists _, _, _. split; [reflexivity|]. by repeat split.
Qed.

(** C2 on the scenario state, target [A] (slot 0) and source [B] (slot 1).
    Copy-assignment raises the count of slot 1 to 2 and move-assignment
    leaves it at 1 with the source inert, but in both cases the count of
    slot 0 stays 1: the share the target held is not released. *)
Theorem assignment_keeps_target_share :
  Handle.assign_copy handle_A handle_B pool_ABC
  = Returns (handle_B, with_counts [1; 2; 1; 0; 0; 0; 0; 0] pool_ABC)
  ∧ Handle.assign_move handle_A handle_B pool_ABC
    = Returns ((handle_B, mkHandle nullptr 64 None), pool_ABC).
Proof. split; reflexivity. Qed.




(** ** Packets *)

(** C9.  [redirect] returns a packet with the frame count of the receiver
    and the receiver's MIDI sequence, the same shared sequence and so the
    same events in every store, over the handles it was given. *)
Theorem redirect_keeps_midi_and_nframes {Event : Type} {N NN : nat}
    (p : Packet.ProcessData Event N) (hs : vec AudioBufferHandle NN) :
  Packet.nframes (Packet.redirect p hs) = Packet.nframes p
  ∧ Packet.midi (Packet.redirect p hs) = Packet.midi p
  ∧ (∀ st : Packet.midi_store Event,
       Packet.events st (Packet.midi (Packet.redirect p hs))
       = Packet.events st (Packet.midi p))
  ∧ Packet.audio (Packet.redirect p hs) = hs.
Proof. by repeat split. Qed.

(** * Further properties of the handle and the pool *)

(** ** What a returning heap operation did *)

Lemma load_count_inv (c : option nat) (p p' : AudioBufferPool) (v : Z) :
  load_count c p = Returns (v, p') →
  ∃ i, c = Some i ∧ reference_counts p !! i = Some v ∧ p' = p.
Proof.
  unfold load_count. destruct c as [i|]; [|done].
  destruct (reference_counts p !! i) as [n|] eqn:Hi; [|done].
  intros [= <- <-]. eauto.
Qed.

Lemma incr_count_inv (c : option nat) (p p' : AudioBufferPool) (u : unit) :
  incr_count c p = Returns (u, p') →
  ∃ i n, c = Some i ∧ reference_counts p !! i = Some n ∧ n < INT_MAX
         ∧ p' = with_counts (<[i:=n + 1]> (reference_counts p)) p.
Proof.
  unfold incr_count, mbind, M_bind.
  destruct (load_count c p) as [[v q]| |] eqn:Hload; [|done..].
  apply load_count_inv in Hload as (i & -> & Hi & ->).
  destruct (Z.ltb_spec v INT_MAX); [|done].
  rewrite (store_count_cell _ _ _ _ Hi). intros [= <-]. eauto 6.
Qed.

Lemma decr_count_inv (c : option nat) (p p' : AudioBufferPool) (u : unit) :
  decr_count c p = Returns (u, p') →
  ∃ i n, c = Some i ∧ reference_counts p !! i = Some n ∧ INT_MIN < n
         ∧ p' = with_counts (<[i:=n - 1]> (reference_counts p)) p.
Proof.
  unfold decr_count, mbind, M_bind.
  destruct (load_count c p) as [[v q]| |] eqn:Hload; [|done..].
  apply load_count_inv in Hload as (i & -> & Hi & ->).
  destruct (Z.ltb_spec INT_MIN v); [|done].
  rewrite (store_count_cell _ _ _ _ Hi). intros [= <-]. eauto 6.
Qed.

Lemma destroy_cell (p : AudioBufferPool) (h : AudioBufferHandle) (c : nat)
    (n : Z) :
  _reference_count h = Some c →
  reference_counts p !! c = Some n → INT_MIN < n →
  Handle.destroy h p
  = Returns (tt, with_counts (<[c:=n - 1]> (reference_counts p)) p).
Proof.
  intros Hr Hc Hn. unfold Handle.destroy. rewrite Hr.
  by apply decr_count_cell.
Qed.

(** ** Shares are given back *)

(** A share taken by the copy constructor or by [slice] is given back by
    the destructor of the new handle: after copy-and-destroy, and after
    slice-and-destroy, the heap is the heap before. *)
Theorem share_taken_is_given_back {dm : DataModel} (p : AudioBufferPool)
    (h : AudioBufferHandle) (b : nat) (base : Z) (c : nat) (n idx len : Z) :
  Handle.data h = Ptr b base → _reference_count h = Some c →
  reference_counts p !! c = Some n → is_int n → n < INT_MAX →
  (∃ h' p1, Handle.copy h p = Returns (h', p1)
            ∧ Handle.destroy h' p1 = Returns (tt, p))
  ∧ (∃ s p1, Handle.slice h idx len p = Returns (s, p1)
             ∧ Handle.destroy s p1 = Returns (tt, p)).
Proof.
  intros Hd Hr Hc [Hmin _] Hn.
  assert (∀ h' : AudioBufferHandle, _reference_count h' = Some c →
    Handle.destroy h' (with_counts (<[c:=n + 1]> (reference_counts p)) p)
    = Returns (tt, p)) as Hback.
  { intros h' Hr'. rewrite (destroy_cell _ h' c (n + 1)); simpl; try done.
    - replace (n + 1 - 1) with n by lia.
      unfold with_counts. simpl.
      rewrite list_insert_insert_eq, list_insert_id by done. by destruct p.
    - apply list_lookup_insert_eq. by eapply lookup_lt_Some.
    - lia. }
  split.
  - eexists _, _. split.
    { unfold Handle.copy, mbind, M_bind. rewrite Hr.
      by rewrite (incr_count_cell _ _ _ Hc Hn). }
    by apply Hback.
  - eexists _, _. split.
    { by apply slice_cell with (1 := Hd) (2 := Hr) (3 := Hc). }
    by apply Hback.
Qed.

Lemma share_taken_is_given_back_witness :
  (∃ h' p1, Handle.copy handle_A pool_ABC = Returns (h', p1)
            ∧ Handle.destroy h' p1 = Returns (tt, pool_ABC))
  ∧ (∃ s p1, Handle.slice (dm:=LP64) handle_A 32 16 pool_ABC = Returns (s, p1)
             ∧ Handle.destroy s p1 = Returns (tt, pool_ABC)).
Proof.
  apply (share_taken_is_given_back (dm:=LP64) pool_ABC handle_A 1 0 0 1 32 16);
    try reflexivity; unfold is_int, INT_MIN, INT_MAX; lia.
Defined.

(** ** Inert handles *)

Lemma release_inv (p p' : AudioBufferPool) (h h' : AudioBufferHandle) :
  Handle.release h p = Returns (h', p') →
  inert h' ∧ _length h' = _length h
  ∧ ∃ c n, _reference_count h = Some c ∧ reference_counts p !! c = Some n
           ∧ INT_MIN < n
           ∧ p' = with_counts (<[c:=n - 1]> (reference_counts p)) p.
Proof.
  unfold Handle.release, mbind, M_bind.
  destruct (decr_count _ p) as [[u q]| |] eqn:Hdecr; [|done..].
  apply decr_count_inv in Hdecr as (c & n & Hr & Hc & Hn & ->).
  intros [= <- <-]. repeat split. eauto 6.
Qed.

Lemma inert_uses (h : AudioBufferHandle) (p : AudioBufferPool) :
  inert h →
  Handle.destroy h p = Returns (tt, p)
  ∧ Handle.release h p = Undefined
  ∧ Handle.copy h p = Undefined
  ∧ Handle.reference_count h p = Undefined
  ∧ (∀ i, Handle.at_ h i p = Undefined)
  ∧ (∀ i x, Handle.set_at h i x p = Undefined).
Proof.
  intros [Hd Hr].
  unfold Handle.destroy, Handle.release, Handle.copy, Handle.reference_count,
    Handle.at_, Handle.set_at, mbind, M_bind.
  rewrite Hd, Hr. simpl. split_and!; try done.
  - intros i. by destruct (i =? 0).
  - intros i x. by destruct (i =? 0).
Qed.

(** Only the destructor tests for the null pointer.  On the handle that
    [release] leaves behind, destruction does nothing, while a second
    [release], a copy, [reference_count()], [slice] and element access are
    undefined; the same holds of the source of a move. *)
Theorem released_handle_only_destructible {dm : DataModel}
    (p p' : AudioBufferPool) (h h' : AudioBufferHandle) :
  Handle.release h p = Returns (h', p') →
  Handle.destroy h' p' = Returns (tt, p')
  ∧ Handle.release h' p' = Undefined
  ∧ Handle.copy h' p' = Undefined
  ∧ Handle.reference_count h' p' = Undefined
  ∧ (∀ idx len, Handle.slice h' idx len p' = Undefined)
  ∧ (∀ i, Handle.at_ h' i p' = Undefined)
  ∧ (∀ i x, Handle.set_at h' i x p' = Undefined)
  ∧ (∀ g g0 q, Handle.move h q = Returns ((g, g0), q) →
               Handle.destroy g0 q = Returns (tt, q)
               ∧ Handle.release g0 q = Undefined
               ∧ Handle.copy g0 q = Undefined
               ∧ Handle.reference_count g0 q = Undefined
               ∧ (∀ idx len, Handle.slice g0 idx len q = Undefined)
               ∧ (∀ i, Handle.at_ g0 i q = Undefined)
               ∧ (∀ i x, Handle.set_at g0 i x q = Undefined)).
Proof.
  assert (∀ (g : AudioBufferHandle) (q : AudioBufferPool), inert g →
            ∀ idx len, Handle.slice g idx len q = Undefined) as Hslice.
  { intros g q [Hd Hr] idx len.
    unfold Handle.slice. rewrite Hd, Hr. simpl. by destruct (idx =? 0). }
  intros (Hin & _ & _)%release_inv.
  destruct (inert_uses h' p' Hin) as (? & ? & ? & ? & ? & ?).
  split_and!; try done.
  - by apply Hslice.
  - intros g g0 q [= _ <-].
    destruct (inert_uses (mkHandle nullptr (_length h) None) q)
      as (? & ? & ? & ? & ? & ?); [done|].
    split_and!; try done. by apply Hslice.
Qed.

Lemma released_handle_only_destructible_witness :
  Handle.destroy handle_C_released pool_AB = Returns (tt, pool_AB)
  ∧ Handle.release handle_C_released pool_AB = Undefined
  ∧ Handle.copy handle_C_released pool_AB = Undefined
  ∧ Handle.reference_count handle_C_released pool_AB = Undefined
  ∧ (∀ idx len,
       Handle.slice (dm:=LP64) handle_C_released idx len pool_AB = Undefined)
  ∧ (∀ i, Handle.at_ handle_C_released i pool_AB = Undefined)
  ∧ (∀ i x, Handle.set_at handle_C_released i x pool_AB = Undefined)
  ∧ (∀ g g0 q, Handle.move handle_C q = Returns ((g, g0), q) →
               Handle.destroy g0 q = Returns (tt, q)
               ∧ Handle.release g0 q = Undefined
               ∧ Handle.copy g0 q = Undefined
               ∧ Handle.reference_count g0 q = Undefined
               ∧ (∀ idx len,
                    Handle.slice (dm:=LP64) g0 idx len q = Undefined)
               ∧ (∀ i, Handle.at_ g0 i q = Undefined)
               ∧ (∀ i x, Handle.set_at g0 i x q = Undefined)).
Proof.
  apply (released_handle_only_destructible (dm:=LP64) pool_ABC pool_AB
           handle_C handle_C_released).
  reflexivity.
Defined.

(** ** Slices *)

(** Slicing a handle over its whole length, with the length given or
    defaulted, is copying it: the same handle and the same heap, and the
    same undefined behaviour on a handle that cannot be copied. *)
Theorem full_slice_is_copy {dm : DataModel} (p : AudioBufferPool)
    (h : AudioBufferHandle) :
  0 <= Handle.size h <= INT_MAX →
  Handle.slice h 0 (Handle.size h) p = Handle.copy h p
  ∧ Handle.slice_default h 0 p = Handle.copy h p.
Proof.
  unfold Handle.size. intros HL.
  assert (ptr_add (_data h) 0 = Some (_data h)) as Hptr.
  { destruct (_data h) as [|b o]; simpl; [done|]. by rewrite Z.add_0_r. }
  assert (is_int (_length h)) as Hint.
  { unfold is_int, INT_MIN, INT_MAX in *. lia. }
  assert (is_int 0) as Hint0 by (unfold is_int, INT_MIN, INT_MAX; lia).
  unfold Handle.slice_default, Handle.slice, Handle.copy, Handle.new.
  rewrite Hptr, slice_length_given by (done || lia).
  rewrite (slice_length_remainder _ 0 (-1)) by (done || lia).
  rewrite Z.sub_0_r.
  destruct (_reference_count h) as [c|]; [done|].
  unfold mbind, M_bind, incr_count, mbind, M_bind. done.
Qed.

Lemma full_slice_is_copy_witness :
  Handle.slice (dm:=LP64) handle_A 0 (Handle.size handle_A) pool_ABC
  = Handle.copy handle_A pool_ABC
  ∧ Handle.slice_default (dm:=LP64) handle_A 0 pool_ABC
    = Handle.copy handle_A pool_ABC.
Proof.
  apply (full_slice_is_copy (dm:=LP64) pool_ABC handle_A).
  unfold Handle.size, INT_MAX. simpl. lia.
Defined.

(** A slice of a slice is the slice of the original at the sum of the two
    offsets: the same data pointer, size and count cell.  The two nested
    calls leave the count two higher. *)
Theorem slice_of_slice {dm : DataModel} (p : AudioBufferPool)
    (h : AudioBufferHandle) (b : nat) (base : Z) (c : nat) (n i l j m : Z) :
  Handle.data h = Ptr b base → _reference_count h = Some c →
  reference_counts p !! c = Some n → n + 1 < INT_MAX →
  is_int i → is_int j → is_int (i + j) →
  is_int l → 0 <= l → is_int m → 0 <= m →
  ∃ s p1 t p2 u p3,
    Handle.slice h i l p = Returns (s, p1)
    ∧ Handle.slice s j m p1 = Returns (t, p2)
    ∧ Handle.slice h (i + j) m p = Returns (u, p3)
    ∧ t = u
    ∧ reference_counts p2 = <[c:=n + 2]> (reference_counts p).
Proof.
  intros Hd Hr Hc Hn _ _ _ Hl Hl0 Hm Hm0.
  eexists _, _, _, _, _, _. split.
  { apply slice_cell with (1 := Hd) (2 := Hr) (3 := Hc). lia. }
  split.
  { apply slice_cell with (b := b) (base := base + i) (c := c) (n := n + 1).
    - done.
    - done.
    - simpl. apply list_lookup_insert_eq. by eapply lookup_lt_Some.
    - lia. }
  split.
  { apply slice_cell with (1 := Hd) (2 := Hr) (3 := Hc). lia. }
  simpl. rewrite !slice_length_given by done. split.
  - by rewrite Z.add_assoc.
  - rewrite list_insert_insert_eq. f_equal. lia.
Qed.

Lemma slice_of_slice_witness :
  ∃ s p1 t p2 u p3,
    Handle.slice (dm:=LP64) handle_A 16 40 pool_ABC = Returns (s, p1)
    ∧ Handle.slice (dm:=LP64) s 8 24 p1 = Returns (t, p2)
    ∧ Handle.slice (dm:=LP64) handle_A (16 + 8) 24 pool_ABC = Returns (u, p3)
    ∧ t = u
    ∧ reference_counts p2 = <[0%nat:=1 + 2]> (reference_counts pool_ABC).
Proof.
  apply (slice_of_slice (dm:=LP64) pool_ABC handle_A 1 0 0 1 16 40 8 24);
    try reflexivity; unfold is_int, INT_MIN, INT_MAX; lia.
Defined.

(** [slice] does not check [idx] and [length] against the size of the
    handle.  For every [idx] at which [_data + idx] still lies within the
    pool's array and every [length >= 0], also where [idx + length]
    exceeds the size of the handle, it returns the view at [base + idx] of
    size [length] on the same count cell and raises that count by one;
    reading a sample of the view that lies outside the pool's array is
    undefined. *)
Theorem slice_is_not_range_checked {dm : DataModel} (p : AudioBufferPool)
    (h : AudioBufferHandle) (b : nat) (base : Z) (c : nat) (n idx len : Z) :
  Handle.data h = Ptr b base → _reference_count h = Some c →
  reference_counts p !! c = Some n → n < INT_MAX →
  points_into p (Ptr b (base + idx)) →
  is_int len → 0 <= len →
  ∃ s p',
    Handle.slice h idx len p = Returns (s, p')
    ∧ Handle.data s = Ptr b (base + idx)
    ∧ Handle.size s = len
    ∧ _reference_count s = Some c
    ∧ reference_counts p' = <[c:=n + 1]> (reference_counts p)
    ∧ Handle.reference_count s p' = Returns (n + 1, p')
    ∧ ∀ k, Z.of_nat (length (data p)) <= base + idx + k →
           Handle.at_ s k p' = Undefined.
Proof.
  intros Hd Hr Hc Hn [_ Hin] Hlen Hlen0. eexists _, _. split.
  { by apply slice_cell with (1 := Hd) (2 := Hr) (3 := Hc). }
  simpl. split_and!; try done.
  - by apply slice_length_given.
  - apply load_count_cell. simpl.
    apply list_lookup_insert_eq. by eapply lookup_lt_Some.
  - intros k Hk. unfold Handle.at_, load_sample. simpl.
    case_decide as Hdec; [|done].
    rewrite lookup_ge_None_2; [done|lia].
Qed.

Lemma slice_is_not_range_checked_witness :
  ∃ s p',
    Handle.slice (dm:=LP64) handle_A 32 1000 pool_ABC = Returns (s, p')
    ∧ Handle.data s = Ptr 1 (0 + 32)
    ∧ Handle.size s = 1000
    ∧ _reference_count s = Some 0%nat
    ∧ reference_counts p' = <[0%nat:=1 + 1]> (reference_counts pool_ABC)
    ∧ Handle.reference_count s p' = Returns (1 + 1, p')
    ∧ ∀ k, Z.of_nat (length (data pool_ABC)) <= 0 + 32 + k →
           Handle.at_ s k p' = Undefined.
Proof.
  apply (slice_is_not_range_checked (dm:=LP64) pool_ABC handle_A 1 0 0 1
           32 1000);
    try reflexivity; unfold is_int, INT_MIN, INT_MAX; simpl; lia.
Defined.

(** ** Samples *)

Lemma at_cell (p : AudioBufferPool) (h : AudioBufferHandle) (o k : Z)
    (x : float) :
  _data h = Ptr (data_blk p) o → 0 <= o + k →
  data p !! Z.to_nat (o + k) = Some x →
  Handle.at_ h k p = Returns (x, p).
Proof.
  intros Hd Hpos Hx. unfold Handle.at_. rewrite Hd. simpl.
  by apply load_sample_cell.
Qed.

Lemma set_at_cell (p : AudioBufferPool) (h : AudioBufferHandle) (o k : Z)
    (x : float) :
  _data h = Ptr (data_blk p) o →
  0 <= o + k < Z.of_nat (length (data p)) →
  Handle.set_at h k x p
  = Returns (tt, with_data (<[Z.to_nat (o + k):=x]> (data p)) p).
Proof.
  intros Hd Hin. unfold Handle.set_at. rewrite Hd. simpl.
  rewrite <- (Z2Nat.id (o + k)) at 1 by lia.
  apply store_sample_cell. lia.
Qed.

Lemma clear_effect (p : AudioBufferPool)
    (h : AudioBufferHandle) (o : Z) :
  Handle.data h = Ptr (data_blk p) o →
  0 <= o → 0 <= Handle.size h →
  o + Handle.size h <= Z.of_nat (length (data p)) →
  ∃ p',
    Handle.clear h p = Returns (tt, p')
    ∧ reference_counts p' = reference_counts p
    ∧ length (data p') = length (data p)
    ∧ (∀ k, 0 <= k < Handle.size h →
            Handle.at_ h k p' = Returns (float_zero, p'))
    ∧ (∀ j : nat, Z.of_nat j < o ∨ o + Handle.size h <= Z.of_nat j →
                  data p' !! j = data p !! j).
Proof.
  unfold Handle.data, Handle.size. intros Hd Ho HL Hfit.
  destruct (fill_region (Z.to_nat (_length h)) p (Z.to_nat o) float_zero)
    as (d & Hrun & Hlen & Hin & Hout); [lia|].
  rewrite Z2Nat.id in Hrun by done.
  exists (with_data d p). split.
  { unfold Handle.clear, Handle.end_, Handle.begin. rewrite Hd. simpl. done. }
  simpl. split_and!; try done.
  - intros k Hk. apply (at_cell (with_data d p) h o k); simpl; [done|lia|].
    apply Hin. lia.
  - intros j Hj. apply Hout. lia.
Qed.

(** [clear] zeroes the samples of the handle's view and nothing else:
    every sample of the view reads zero afterwards, every sample outside
    it is the sample before, and no count changes. *)
Theorem clear_zeroes_only_its_view (p : AudioBufferPool)
    (h : AudioBufferHandle) (o : Z) :
  Handle.data h = Ptr (data_blk p) o →
  0 <= o → 0 <= Handle.size h →
  o + Handle.size h <= Z.of_nat (length (data p)) →
  ∃ p',
    Handle.clear h p = Returns (tt, p')
    ∧ reference_counts p' = reference_counts p
    ∧ length (data p') = length (data p)
    ∧ (∀ k, 0 <= k < Handle.size h →
            Handle.at_ h k p' = Returns (float_zero, p'))
    ∧ (∀ j : nat, Z.of_nat j < o ∨ o + Handle.size h <= Z.of_nat j →
                  data p' !! j = data p !! j).
Proof. apply clear_effect. Qed.

Lemma clear_zeroes_only_its_view_witness :
  Handle.at_ handle_ones 2 pool_ones = Returns (float_one, pool_ones)
  ∧ ∃ p',
      Handle.clear handle_ones pool_ones = Returns (tt, p')
      ∧ reference_counts p' = reference_counts pool_ones
      ∧ length (data p') = length (data pool_ones)
      ∧ (∀ k, 0 <= k < Handle.size handle_ones →
              Handle.at_ handle_ones k p' = Returns (float_zero, p'))
      ∧ (∀ j : nat, Z.of_nat j < 0
                    ∨ 0 + Handle.size handle_ones <= Z.of_nat j →
                    data p' !! j = data pool_ones !! j).
Proof.
  split; [reflexivity|].
  apply (clear_zeroes_only_its_view pool_ones handle_ones 0);
    [reflexivity | lia | unfold Handle.size; simpl; lia
    | unfold Handle.size; simpl; lia].
Defined.

(** A slice is a view of the same samples: a sample written through a
    slice at [k] is the sample read through the original handle at
    [idx + k], and the other samples of the original read as before. *)
Theorem write_through_slice_is_seen_by_parent {dm : DataModel}
    (p : AudioBufferPool) (h : AudioBufferHandle) (o : Z) (c : nat)
    (n idx len k : Z) (x : float) :
  Handle.data h = Ptr (data_blk p) o → _reference_count h = Some c →
  reference_counts p !! c = Some n → n < INT_MAX →
  0 <= o + idx + k < Z.of_nat (length (data p)) →
  ∃ s p1 p2,
    Handle.slice h idx len p = Returns (s, p1)
    ∧ Handle.set_at s k x p1 = Returns (tt, p2)
    ∧ Handle.at_ h (idx + k) p2 = Returns (x, p2)
    ∧ Handle.at_ s k p2 = Returns (x, p2)
    ∧ ∀ k' y, k' ≠ idx + k → 0 <= o + k' →
              Handle.at_ h k' p1 = Returns (y, p1) →
              Handle.at_ h k' p2 = Returns (y, p2).
Proof.
  unfold Handle.data. intros Hd Hr Hc Hn Hin.
  set (p1 := with_counts (<[c:=n + 1]> (reference_counts p)) p).
  set (p2 := with_data (<[Z.to_nat (o + idx + k):=x]> (data p1)) p1).
  assert (data p1 = data p ∧ data_blk p1 = data_blk p) as [Hd1 Hb1] by done.
  eexists _, p1, p2. split.
  { by apply slice_cell with (1 := Hd) (2 := Hr) (3 := Hc). }
  split.
  { apply (set_at_cell p1 _ (o + idx) k); [reflexivity|exact Hin]. }
  assert (data p2 !! Z.to_nat (o + idx + k) = Some x) as Hx.
  { unfold p2. simpl. apply list_lookup_insert_eq. lia. }
  split; [|split].
  - apply (at_cell p2 h o (idx + k)); [done|lia|].
    by rewrite Z.add_assoc.
  - apply (at_cell p2 _ (o + idx) k); [done|lia|done].
  - intros k' y Hne Hpos. unfold Handle.at_. rewrite Hd. simpl.
    unfold load_sample. simpl. rewrite !decide_True by done.
    rewrite list_lookup_insert_ne by lia.
    destruct (data p !! Z.to_nat (o + k')); [|done].
    by intros [= ->].
Qed.

Lemma write_through_slice_is_seen_by_parent_witness :
  ∃ s p1 p2,
    Handle.slice (dm:=LP64) handle_B 32 16 pool_ABC = Returns (s, p1)
    ∧ Handle.set_at s 5 float_one p1 = Returns (tt, p2)
    ∧ Handle.at_ handle_B (32 + 5) p2 = Returns (float_one, p2)
    ∧ Handle.at_ s 5 p2 = Returns (float_one, p2)
    ∧ ∀ k' y, k' ≠ 32 + 5 → 0 <= 64 + k' →
              Handle.at_ handle_B k' p1 = Returns (y, p1) →
              Handle.at_ handle_B k' p2 = Returns (y, p2).
Proof.
  apply (write_through_slice_is_seen_by_parent (dm:=LP64)
           pool_ABC handle_B 64 1 1 32 16 5 float_one);
    [reflexivity | reflexivity | reflexivity | unfold INT_MAX; lia
    | simpl; lia].
Defined.

(** After [set_buffer_size] the handles minted before point into the
    array that was replaced: reading or writing a sample through them is
    undefined, and so is [clear] on a view that is not empty. *)
Theorem set_buffer_size_leaves_handles_dangling {dm : DataModel}
    (p p' : AudioBufferPool) (h : AudioBufferHandle) (o bs : Z) :
  Handle.data h = Ptr (data_blk p) o →
  Pool.set_buffer_size bs p = Returns (tt, p') →
  (∀ k, Handle.at_ h k p' = Undefined)
  ∧ (∀ k x, Handle.set_at h k x p' = Undefined)
  ∧ (0 < Handle.size h → Handle.clear h p' = Undefined).
Proof.
  unfold Handle.data, Handle.size. intros Hd Hset.
  assert (data_blk p' = S (data_blk p)) as Hblk
    by (by apply set_buffer_size_inv in Hset as [_ ->]).
  assert (∀ q, load_sample (Ptr (data_blk p) q) p' = Undefined) as Hload.
  { intros q. unfold load_sample.
    rewrite decide_False; [done|]. intros [Heq _]. lia. }
  split_and!.
  - intros k. unfold Handle.at_. rewrite Hd. apply Hload.
  - intros k x. unfold Handle.set_at. rewrite Hd.
    unfold ptr_add, store_sample, mbind, M_bind. by rewrite Hload.
  - intros HL. unfold Handle.clear, Handle.end_, Handle.begin.
    rewrite Hd. unfold ptr_add.
    destruct (Z.to_nat (_length h)) as [|m] eqn:Hm; [lia|].
    unfold Handle.fill, store_sample, mbind, M_bind. by rewrite Hload.
Qed.

Lemma set_buffer_size_leaves_handles_dangling_witness :
  (∀ k, Handle.at_ handle_A k pool_ABC_resized = Undefined)
  ∧ (∀ k x, Handle.set_at handle_A k x pool_ABC_resized = Undefined)
  ∧ (0 < Handle.size handle_A →
     Handle.clear handle_A pool_ABC_resized = Undefined).
Proof.
  apply (set_buffer_size_leaves_handles_dangling (dm:=LP64)
           pool_ABC pool_ABC_resized handle_A 0 128);
    reflexivity.
Defined.

(** ** Allocation *)

Lemma allocate_inv {dm : DataModel} (p p' : AudioBufferPool)
    (h : AudioBufferHandle) :
  Pool.allocate p = Returns (h, p') →
  ∃ (i : nat) (c : Z),
    reference_counts p !! i = Some c ∧ c < 1
    ∧ (∀ j y, reference_counts p !! j = Some y → (j < i)%nat → ¬ y < 1)
    ∧ h = mkHandle
            (Ptr (data_blk p) (to_int (to_size (Z.of_nat i * buffer_size p))))
            (buffer_size p) (Some i)
    ∧ p' = with_counts (<[i:=1]> (reference_counts p))
             (if Z.of_nat i >? _max_val p then with_max_val (Z.of_nat i) p
              else p).
Proof.
  rewrite allocate_find.
  destruct (list_find _ _) as [[i c]|] eqn:Hfind; [|done].
  apply list_find_Some in Hfind as (Hi & Hc & Hleast).
  rewrite (allocate_at_cell _ _ _ Hi). intros [= <- <-].
  exists i, c. by split_and!.
Qed.

Lemma allocate_cases {dm : DataModel} (p : AudioBufferPool) :
  (Pool.allocate p = Terminates ∧ free_slots p = 0%nat)
  ∨ (∃ h p', Pool.allocate p = Returns (h, p') ∧ free_slots p ≠ 0%nat).
Proof.
  rewrite allocate_find. unfold free_slots.
  destruct (list_find _ _) as [[i c]|] eqn:Hfind.
  - right. apply list_find_Some in Hfind as (Hi & Hc & _).
    rewrite (allocate_at_cell _ _ _ Hi). eexists _, _. split; [done|].
    intros Hnil%length_zero_iff_nil.
    eapply (filter_nil_not_elem_of _ _ c Hnil Hc).
    by eapply list_elem_of_lookup_2.
  - left. split; [done|]. apply list_find_None in Hfind.
    induction Hfind as [|x l Hx _ IH]; [done|].
    by rewrite filter_cons_False.
Qed.

Lemma free_slots_insert_held (l : list Z) (i : nat) (c v : Z) :
  l !! i = Some c → c < 1 → ¬ v < 1 →
  length (filter (λ c, c < 1) l)
  = S (length (filter (λ c, c < 1) (<[i:=v]> l))).
Proof.
  intros Hi Hc Hv.
  rewrite insert_take_drop by (by eapply lookup_lt_Some).
  rewrite <- (take_drop_middle l i c Hi) at 1.
  rewrite !filter_app, !length_app.
  rewrite filter_cons_True, filter_cons_False by done. simpl. lia.
Qed.



Lemma allocate_effect {dm : DataModel} (p p' : AudioBufferPool)
    (h : AudioBufferHandle) :
  Pool.allocate p = Returns (h, p') →
  ∃ (i : nat) (c : Z),
    _reference_count h = Some i
    ∧ reference_counts p !! i = Some c ∧ c < 1
    ∧ reference_counts p' !! i = Some 1
    ∧ (∀ j, j ≠ i → reference_counts p' !! j = reference_counts p !! j)
    ∧ length (reference_counts p') = length (reference_counts p)
    ∧ data p' = data p
    ∧ data_blk p' = data_blk p
    ∧ buffer_size p' = buffer_size p.
Proof.
  intros (i & c & Hi & Hc & _ & -> & ->)%allocate_inv.
  exists i, c. split_and!; try done.
  - simpl. apply list_lookup_insert_eq. by eapply lookup_lt_Some.
  - intros j Hj. simpl. by apply list_lookup_insert_ne.
  - simpl. apply length_insert.
  - by destruct (_ >? _).
  - by destruct (_ >? _).
  - by destruct (_ >? _).
Qed.

(** [allocate] changes one count and nothing else that a handle can see:
    the slot it returns had a count below 1 and has count 1 afterwards,
    every other count, every sample, the buffer size and the storage are
    as before.  A slot that is held is therefore never handed out. *)
Theorem allocate_changes_one_count {dm : DataModel} (p p' : AudioBufferPool)
    (h : AudioBufferHandle) :
  Pool.allocate p = Returns (h, p') →
  ∃ (i : nat) (c : Z),
    _reference_count h = Some i
    ∧ reference_counts p !! i = Some c ∧ c < 1
    ∧ reference_counts p' !! i = Some 1
    ∧ (∀ j, j ≠ i → reference_counts p' !! j = reference_counts p !! j)
    ∧ length (reference_counts p') = length (reference_counts p)
    ∧ data p' = data p
    ∧ data_blk p' = data_blk p
    ∧ buffer_size p' = buffer_size p.
Proof. apply allocate_effect. Qed.

Lemma allocate_changes_one_count_witness :
  ∃ (i : nat) (c : Z),
    _reference_count handle_D = Some i
    ∧ reference_counts pool_ABC !! i = Some c ∧ c < 1
    ∧ reference_counts pool_ABCD !! i = Some 1
    ∧ (∀ j, j ≠ i →
            reference_counts pool_ABCD !! j = reference_counts pool_ABC !! j)
    ∧ length (reference_counts pool_ABCD) = length (reference_counts pool_ABC)
    ∧ data pool_ABCD = data pool_ABC
    ∧ data_blk pool_ABCD = data_blk pool_ABC
    ∧ buffer_size pool_ABCD = buffer_size pool_ABC.
Proof.
  apply (allocate_changes_one_count (dm:=LP64) pool_ABC pool_ABCD handle_D).
  reflexivity.
Defined.

Lemma allocate_free_slot_count {dm : DataModel} (p : AudioBufferPool) :
  (Pool.allocate p = Terminates ↔ free_slots p = 0%nat)
  ∧ (∀ h p', Pool.allocate p = Returns (h, p') →
             free_slots p = S (free_slots p')).
Proof.
  split.
  - destruct (allocate_cases p) as [[Ht H0]|(h & p' & Hr & Hn)].
    + by split.
    + rewrite Hr. by split.
  - intros h p' (i & c & Hi & Hc & _ & _ & ->)%allocate_inv.
    unfold free_slots. simpl.
    replace (reference_counts (if Z.of_nat i >? _max_val p
                               then with_max_val (Z.of_nat i) p else p))
      with (reference_counts p) by (by destruct (_ >? _)).
    apply (free_slots_insert_held _ i c 1); [done|done|lia].
Qed.

(** Every successful [allocate] uses up exactly one free slot, and
    [allocate] reaches [std::terminate] exactly when no slot is free. *)
Theorem allocate_takes_one_free_slot {dm : DataModel} (p : AudioBufferPool) :
  (Pool.allocate p = Terminates ↔ free_slots p = 0%nat)
  ∧ (∀ h p', Pool.allocate p = Returns (h, p') →
             free_slots p = S (free_slots p')).
Proof. apply allocate_free_slot_count. Qed.

Lemma allocate_takes_one_free_slot_witness :
  (Pool.allocate (dm:=LP64) pool_full = Terminates
   ↔ free_slots pool_full = 0%nat)
  ∧ free_slots pool_ABC = S (free_slots pool_ABCD).
Proof.
  split.
  - apply (proj1 (allocate_takes_one_free_slot (dm:=LP64) pool_full)).
  - apply (proj2 (allocate_takes_one_free_slot (dm:=LP64) pool_ABC)
             handle_D pool_ABCD).
    reflexivity.
Defined.

(** While a slot is held (count at least 1), [allocate] returns neither
    that slot nor a view that overlaps its samples, and leaves its count
    alone: the view returned lies inside the array and entirely before or
    entirely after the samples of the held slot. *)
Theorem allocate_avoids_held_slots {dm : DataModel} (p p' : AudioBufferPool)
    (h : AudioBufferHandle) (j : nat) (c : Z) :
  pool_wf p →
  reference_counts p !! j = Some c → 1 <= c →
  Pool.allocate p = Returns (h, p') →
  _reference_count h ≠ Some j
  ∧ reference_counts p' !! j = Some c
  ∧ ∃ o,
      Handle.data h = Ptr (data_blk p) o
      ∧ Handle.size h = buffer_size p
      ∧ 0 <= o
      ∧ o + buffer_size p <= Z.of_nat (length (data p))
      ∧ (o + buffer_size p <= Z.of_nat j * buffer_size p
         ∨ (Z.of_nat j + 1) * buffer_size p <= o).
Proof.
  intros Hwf Hj Hc (i & y & Hi & Hy & _ & -> & ->)%allocate_inv.
  assert (i ≠ j) as Hne by (intros ->; simplify_eq; lia).
  destruct (pool_wf_slot p i y Hwf Hi) as (Hoff & Hpos & Hfit).
  destruct Hwf as [_ Hbs _ _].
  split_and!.
  - simpl. congruence.
  - simpl. by rewrite list_lookup_insert_ne.
  - exists (Z.of_nat i * buffer_size p). unfold Handle.data, Handle.size.
    simpl. rewrite Hoff. split_and!; try done; [lia|nia].
Qed.

Lemma allocate_avoids_held_slots_witness :
  _reference_count handle_D ≠ Some 1%nat
  ∧ reference_counts pool_ABCD !! 1%nat = Some 1
  ∧ ∃ o,
      Handle.data handle_D = Ptr (data_blk pool_ABC) o
      ∧ Handle.size handle_D = buffer_size pool_ABC
      ∧ 0 <= o
      ∧ o + buffer_size pool_ABC <= Z.of_nat (length (data pool_ABC))
      ∧ (o + buffer_size pool_ABC <= Z.of_nat 1 * buffer_size pool_ABC
         ∨ (Z.of_nat 1 + 1) * buffer_size pool_ABC <= o).
Proof.
  apply (allocate_avoids_held_slots (dm:=LP64) pool_ABC pool_ABCD handle_D 1 1
           pool_ABC_wf);
    [reflexivity | lia | reflexivity].
Defined.

(** A slot is reusable as soon as its handle is gone: destroying the
    handle that [allocate] returned and calling [allocate] again returns
    the same handle and reaches the same state as the first call. *)
Theorem allocate_destroy_allocate {dm : DataModel} (p p1 : AudioBufferPool)
    (h : AudioBufferHandle) :
  Pool.allocate p = Returns (h, p1) →
  ∃ p2,
    Handle.destroy h p1 = Returns (tt, p2)
    ∧ (∃ i, _reference_count h = Some i ∧ reference_counts p2 !! i = Some 0)
    ∧ Pool.allocate p2 = Returns (h, p1).
Proof.
  intros (i & c & Hi & Hc & Hleast & -> & ->)%allocate_inv.
  set (q := if Z.of_nat i >? _max_val p then with_max_val (Z.of_nat i) p
            else p).
  assert (reference_counts q = reference_counts p ∧ data_blk q = data_blk p
          ∧ buffer_size q = buffer_size p
          ∧ (Z.of_nat i >? _max_val q) = false) as (Hqc & Hqb & Hqs & Hqm).
  { unfold q. destruct (Z.of_nat i >? _max_val p) eqn:Hmax; simpl; [|done].
    split_and!; try done. lia. }
  assert (i < length (reference_counts p))%nat as Hlt
    by (by eapply lookup_lt_Some).
  eexists. split.
  { apply (destroy_cell _ _ i 1); simpl; [done| |unfold INT_MIN; lia].
    by apply list_lookup_insert_eq. }
  simpl. change (1 - 1) with 0. rewrite list_insert_insert_eq. split.
  { exists i. split; [done|]. by apply list_lookup_insert_eq. }
  rewrite allocate_find. simpl.
  assert (list_find (λ c, c < 1) (<[i:=0]> (reference_counts p))
          = Some (i, 0)) as ->.
  { apply list_find_Some. split_and!.
    - by apply list_lookup_insert_eq.
    - lia.
    - intros j y Hj Hji. rewrite list_lookup_insert_ne in Hj by lia.
      by eapply Hleast. }
  rewrite (allocate_at_cell _ i 0); simpl.
  - rewrite Hqm, Hqb, Hqs, list_insert_insert_eq.
    unfold with_counts. simpl. done.
  - by apply list_lookup_insert_eq.
Qed.

Lemma allocate_destroy_allocate_witness :
  ∃ p2,
    Handle.destroy handle_D pool_ABCD = Returns (tt, p2)
    ∧ (∃ i, _reference_count handle_D = Some i
            ∧ reference_counts p2 !! i = Some 0)
    ∧ Pool.allocate (dm:=LP64) p2 = Returns (handle_D, pool_ABCD).
Proof.
  apply (allocate_destroy_allocate (dm:=LP64) pool_ABC pool_ABCD handle_D).
  reflexivity.
Defined.

(** The high-water mark is never recorded.  [_max_val] starts at the
    largest [std::size_t], no slot index exceeds it, and so the branch of
    [allocate] that stores the index is not taken: [_max_val] is the same
    after [allocate], and [set_buffer_size] does not touch it either. *)
Theorem max_val_is_never_updated {dm : DataModel} (p : AudioBufferPool) :
  _max_val p = 2 ^ size_bits - 1 →
  length (reference_counts p) = Z.to_nat number_of_buffers →
  (∀ h p', Pool.allocate p = Returns (h, p') → _max_val p' = _max_val p)
  ∧ (∀ bs p', Pool.set_buffer_size bs p = Returns (tt, p') →
              _max_val p' = _max_val p).
Proof.
  intros Hmax Hlen. split.
  - intros h p' (i & c & Hi & _ & _ & _ & ->)%allocate_inv.
    apply lookup_lt_Some in Hi. rewrite Hlen in Hi.
    assert ((Z.of_nat i >? _max_val p) = false) as ->; [|done].
    rewrite Hmax. unfold number_of_buffers in Hi.
    destruct size_bits_cases as [-> | ->]; lia.
  - by intros bs p' [_ ->]%set_buffer_size_inv.
Qed.

Lemma max_val_is_never_updated_witness :
  (∀ h p', Pool.allocate (dm:=LP64) pool_ABC = Returns (h, p') →
           _max_val p' = _max_val pool_ABC)
  ∧ (∀ bs p', Pool.set_buffer_size (dm:=LP64) bs pool_ABC = Returns (tt, p') →
              _max_val p' = _max_val pool_ABC).
Proof.
  apply (max_val_is_never_updated (dm:=LP64) pool_ABC); reflexivity.
Defined.

(** [allocate_clear] is [allocate] followed by zeroing the slot: it
    terminates when [allocate] does, and otherwise returns the handle
    that [allocate] returns, with the counts [allocate] leaves and every
    sample outside the returned view as it was. *)
Theorem allocate_clear_is_allocate_then_zero {dm : DataModel}
    (p : AudioBufferPool) :
  pool_wf p →
  (Pool.allocate p = Terminates → Pool.allocate_clear p = Terminates)
  ∧ (∀ h p1, Pool.allocate p = Returns (h, p1) →
      ∃ p2 o,
        Pool.allocate_clear p = Returns (h, p2)
        ∧ reference_counts p2 = reference_counts p1
        ∧ length (data p2) = length (data p)
        ∧ Handle.data h = Ptr (data_blk p) o
        ∧ (∀ j : nat, Z.of_nat j < o ∨ o + Handle.size h <= Z.of_nat j →
                      data p2 !! j = data p !! j)).
Proof.
  intros Hwf. split.
  - intros Ht. unfold Pool.allocate_clear, mbind, M_bind. by rewrite Ht.
  - intros h p1 Halloc.
    destruct (allocate_effect p p1 h Halloc)
      as (i & c & Hr & Hi & _ & _ & _ & _ & Hd1 & Hb1 & _).
    pose proof Halloc as (i' & c' & Hi' & _ & _ & Hh & _)%allocate_inv.
    assert (i' = i) as -> by (rewrite Hh in Hr; by injection Hr).
    destruct (pool_wf_slot p i c' Hwf Hi') as (Hoff & Hpos & Hfit).
    rewrite Hoff in Hh.
    destruct (clear_effect p1 h (Z.of_nat i * buffer_size p))
      as (p2 & Hclear & Hcs & Hlen & _ & Hout).
    { rewrite Hh, Hb1. done. }
    { done. }
    { rewrite Hh. simpl. by destruct Hwf. }
    { rewrite Hh, Hd1. unfold Handle.size. simpl. destruct Hwf. lia. }
    exists p2, (Z.of_nat i * buffer_size p). split_and!.
    + unfold Pool.allocate_clear, mbind, M_bind. rewrite Halloc, Hclear.
      simpl. by rewrite handle_eta.
    + done.
    + by rewrite Hlen, Hd1.
    + by rewrite Hh.
    + intros j Hj. rewrite <- Hd1. by apply Hout.
Qed.

Lemma allocate_clear_is_allocate_then_zero_witness :
  (Pool.allocate (dm:=LP64) pool_ABC = Terminates →
   Pool.allocate_clear (dm:=LP64) pool_ABC = Terminates)
  ∧ (∀ h p1, Pool.allocate (dm:=LP64) pool_ABC = Returns (h, p1) →
      ∃ p2 o,
        Pool.allocate_clear (dm:=LP64) pool_ABC = Returns (h, p2)
        ∧ reference_counts p2 = reference_counts p1
        ∧ length (data p2) = length (data pool_ABC)
        ∧ Handle.data h = Ptr (data_blk pool_ABC) o
        ∧ (∀ j : nat, Z.of_nat j < o ∨ o + Handle.size h <= Z.of_nat j →
                      data p2 !! j = data pool_ABC !! j)).
Proof.
  apply (allocate_clear_is_allocate_then_zero (dm:=LP64) pool_ABC pool_ABC_wf).
Defined.

(** ** Allocating several handles *)

Lemma generate_array_S {dm : DataModel} {A} (n : nat) (k : Z) (gen : Z → M A)
    (p : AudioBufferPool) :
  Pool.generate_array (S n) k gen p
  = match gen k p with
    | Returns (x, p1) =>
        match Pool.generate_array n (k + 1) gen p1 with
        | Returns (xs, p2) => Returns (x :: xs, p2)
        | Terminates => Terminates
        | Undefined => Undefined
        end
    | Terminates => Terminates
    | Undefined => Undefined
    end.
Proof.
  simpl. unfold mbind, M_bind. destruct (gen k p) as [[x p1]| |]; [|done..].
  by destruct (Pool.generate_array n (k + 1) gen p1) as [[xs p2]| |].
Qed.

Lemma generate_allocate_spec {dm : DataModel} (n : nat) :
  ∀ (k : Z) (p : AudioBufferPool),
    (n ≤ free_slots p)%nat →
    ∃ hs p',
      Pool.generate_array n k (λ _, Pool.allocate) p = Returns (hs, p')
      ∧ length hs = n
      ∧ NoDup (_reference_count <$> hs)
      ∧ free_slots p = (n + free_slots p')%nat
      ∧ (∀ h, h ∈ hs →
           ∃ (i : nat) (c : Z),
             _reference_count h = Some i
             ∧ reference_counts p !! i = Some c ∧ c < 1
             ∧ reference_counts p' !! i = Some 1)
      ∧ (∀ (j : nat) (c : Z),
           reference_counts p !! j = Some c → ¬ c < 1 →
           reference_counts p' !! j = Some c
           ∧ Some j ∉ _reference_count <$> hs).
Proof.
  induction n as [|n IH]; intros k p Hfree.
  - exists [], p. split_and!; try done.
    + constructor.
    + intros h Hh. by apply elem_of_nil in Hh.
    + intros j c Hj Hc. split; [done|]. apply not_elem_of_nil.
  - destruct (allocate_cases p) as [[_ H0]|(h & p1 & Halloc & _)]; [lia|].
    pose proof (proj2 (allocate_free_slot_count p) h p1 Halloc) as Hone.
    destruct (allocate_effect p p1 h Halloc)
      as (i & c & Hr & Hi & Hc & Hi1 & Hframe & _).
    destruct (IH (k + 1) p1) as (hs & p' & Hrun & Hlen & Hnd & Hcnt & Hin & Hheld);
      [lia|].
    destruct (Hheld i 1 Hi1) as [Hi' Hnotin]; [lia|].
    exists (h :: hs), p'. split_and!.
    + by rewrite generate_array_S, Halloc, Hrun.
    + simpl. by rewrite Hlen.
    + simpl. apply NoDup_cons. split; [by rewrite Hr|done].
    + lia.
    + intros g [->|Hg]%elem_of_cons.
      * exists i, c. by split_and!.
      * destruct (Hin g Hg) as (j & y & Hgr & Hj & Hy & Hj').
        exists j, y. split_and!; try done.
        rewrite <- Hframe; [done|]. intros ->. simplify_eq. lia.
    + intros j y Hj Hy.
      assert (j ≠ i) as Hne by (intros ->; simplify_eq; lia).
      destruct (Hheld j y) as [Hj' Hjnot]; [by rewrite Hframe|done|].
      split; [done|]. simpl. rewrite Hr.
      intros [Heq|?]%elem_of_cons; [|done]. by injection Heq.
Qed.

Lemma generate_allocate_exhausted {dm : DataModel} (n : nat) :
  ∀ (k : Z) (p : AudioBufferPool),
    (free_slots p < n)%nat →
    Pool.generate_array n k (λ _, Pool.allocate) p = Terminates.
Proof.
  induction n as [|n IH]; intros k p Hfree; [lia|].
  rewrite generate_array_S.
  destruct (allocate_cases p) as [[-> _]|(h & p1 & Halloc & _)]; [done|].
  pose proof (proj2 (allocate_free_slot_count p) h p1 Halloc) as Hone.
  rewrite Halloc, (IH (k + 1) p1); [done|lia].
Qed.

(** [allocate_multi<NN>] on a pool with at least [NN] free slots returns
    [NN] handles on pairwise different slots, each of which was free and
    has count 1 afterwards; it uses up exactly [NN] free slots and leaves
    the count of every held slot as it was. *)
Theorem allocate_multi_distinct_slots {dm : DataModel} (NN : nat)
    (p : AudioBufferPool) :
  (NN ≤ free_slots p)%nat →
  ∃ hs p',
    Pool.allocate_multi NN p = Returns (hs, p')
    ∧ length hs = NN
    ∧ NoDup (_reference_count <$> hs)
    ∧ free_slots p = (NN + free_slots p')%nat
    ∧ (∀ h, h ∈ hs →
         ∃ (i : nat) (c : Z),
           _reference_count h = Some i
           ∧ reference_counts p !! i = Some c ∧ c < 1
           ∧ reference_counts p' !! i = Some 1)
    ∧ (∀ (j : nat) (c : Z),
         reference_counts p !! j = Some c → ¬ c < 1 →
         reference_counts p' !! j = Some c
         ∧ Some j ∉ _reference_count <$> hs).
Proof. apply generate_allocate_spec. Qed.

Lemma allocate_multi_distinct_slots_witness :
  ∃ hs p',
    Pool.allocate_multi (dm:=LP64) 2 pool_ABC = Returns (hs, p')
    ∧ length hs = 2%nat
    ∧ NoDup (_reference_count <$> hs)
    ∧ free_slots pool_ABC = (2 + free_slots p')%nat
    ∧ (∀ h, h ∈ hs →
         ∃ (i : nat) (c : Z),
           _reference_count h = Some i
           ∧ reference_counts pool_ABC !! i = Some c ∧ c < 1
           ∧ reference_counts p' !! i = Some 1)
    ∧ (∀ (j : nat) (c : Z),
         reference_counts pool_ABC !! j = Some c → ¬ c < 1 →
         reference_counts p' !! j = Some c
         ∧ Some j ∉ _reference_count <$> hs).
Proof.
  apply (allocate_multi_distinct_slots (dm:=LP64) 2 pool_ABC).
  vm_compute. lia.
Defined.

(** [allocate_multi<NN>] on a pool with fewer than [NN] free slots
    returns nothing: it reaches [std::terminate] in the call of
    [allocate] that finds the pool exhausted. *)
Theorem allocate_multi_exhaustion {dm : DataModel} (NN : nat)
    (p : AudioBufferPool) :
  (free_slots p < NN)%nat →
  Pool.allocate_multi NN p = Terminates.
Proof. apply generate_allocate_exhausted. Qed.

Lemma allocate_multi_exhaustion_witness :
  Pool.allocate_multi (dm:=LP64) 6 pool_ABC = Terminates.
Proof.
  apply (allocate_multi_exhaustion (dm:=LP64) 6 pool_ABC).
  vm_compute. lia.
Defined.

(** ** Counts and live handles *)

Lemma shares_app (hs1 hs2 : list AudioBufferHandle) (i : nat) :
  shares (hs1 ++ hs2) i = shares hs1 i + shares hs2 i.
Proof. unfold shares. rewrite filter_app, length_app. lia. Qed.

Lemma shares_cons (h : AudioBufferHandle) (hs : list AudioBufferHandle)
    (i : nat) :
  shares (h :: hs) i = shares [h] i + shares hs i.
Proof. apply (shares_app [h] hs). Qed.

Lemma shares_one_eq (h : AudioBufferHandle) (i : nat) :
  _reference_count h = Some i → shares [h] i = 1.
Proof. intros Hr. unfold shares. by rewrite filter_cons_True. Qed.

Lemma shares_one_ne (h : AudioBufferHandle) (i : nat) :
  _reference_count h ≠ Some i → shares [h] i = 0.
Proof. intros Hr. unfold shares. by rewrite filter_cons_False. Qed.

Lemma shares_nonneg (hs : list AudioBufferHandle) (i : nat) : 0 <= shares hs i.
Proof. unfold shares. lia. Qed.

Lemma shares_zero_iff (hs : list AudioBufferHandle) (i : nat) :
  shares hs i = 0 ↔ ∀ h, h ∈ hs → _reference_count h ≠ Some i.
Proof.
  induction hs as [|g hs IH].
  - split; [|done]. intros _ h Hh. by apply elem_of_nil in Hh.
  - rewrite shares_cons. pose proof (shares_nonneg hs i).
    destruct (decide (_reference_count g = Some i)) as [Hg|Hg].
    + rewrite (shares_one_eq _ _ Hg). split; [lia|].
      intros Hall. destruct (Hall g); [left|done].
    + rewrite (shares_one_ne _ _ Hg), Z.add_0_l, IH. split.
      * intros Hall h [->|Hh]%elem_of_cons; auto.
      * intros Hall h Hh. apply Hall. by right.
Qed.

Lemma copy_inv (p p' : AudioBufferPool) (h h' : AudioBufferHandle) :
  Handle.copy h p = Returns (h', p') →
  ∃ i n, _reference_count h = Some i ∧ _reference_count h' = Some i
         ∧ reference_counts p !! i = Some n
         ∧ p' = with_counts (<[i:=n + 1]> (reference_counts p)) p.
Proof.
  unfold Handle.copy, mbind, M_bind.
  destruct (incr_count _ p) as [[u q]| |] eqn:Hincr; [|done..].
  apply incr_count_inv in Hincr as (i & n & Hr & Hi & _ & ->).
  intros [= <- <-]. exists i, n. by split_and!.
Qed.

Lemma slice_inv {dm : DataModel} (p p' : AudioBufferPool)
    (h s : AudioBufferHandle) (idx len : Z) :
  Handle.slice h idx len p = Returns (s, p') →
  ∃ i n, _reference_count h = Some i ∧ _reference_count s = Some i
         ∧ reference_counts p !! i = Some n
         ∧ p' = with_counts (<[i:=n + 1]> (reference_counts p)) p.
Proof.
  unfold Handle.slice, Handle.new, mbind, M_bind.
  destruct (ptr_add _ _) as [q|]; [|done].
  destruct (_reference_count h) as [c|]; [|done].
  destruct (incr_count _ p) as [[u r]| |] eqn:Hincr; [|done..].
  apply incr_count_inv in Hincr as (i & n & [= ->] & Hi & _ & ->).
  intros [= <- <-]. exists i, n. by split_and!.
Qed.

Lemma destroy_inv (p p' : AudioBufferPool) (h : AudioBufferHandle) (u : unit) :
  Handle.destroy h p = Returns (u, p') →
  (_reference_count h = None ∧ p' = p)
  ∨ (∃ i n, _reference_count h = Some i ∧ reference_counts p !! i = Some n
            ∧ p' = with_counts (<[i:=n - 1]> (reference_counts p)) p).
Proof.
  unfold Handle.destroy. destruct (_reference_count h) as [c|].
  - intros (i & n & [= ->] & Hi & _ & ->)%decr_count_inv. right. eauto.
  - intros [= <-]. by left.
Qed.

Lemma store_sample_inv (p p' : AudioBufferPool) (q : pointer) (x : float)
    (u : unit) :
  store_sample q x p = Returns (u, p') →
  ∃ d, p' = with_data d p ∧ length d = length (data p).
Proof.
  unfold store_sample, mbind, M_bind.
  destruct (load_sample q p) as [[y r]| |] eqn:Hload; [|done..].
  assert (r = p) as ->.
  { unfold load_sample in Hload. destruct q as [|b o]; [done|].
    case_decide; [|done]. destruct (data p !! _); [|done].
    by injection Hload. }
  destruct q as [|b o]; [done|]. intros [= <-].
  eexists. split; [done|]. apply length_insert.
Qed.

Lemma fill_inv (n : nat) (p p' : AudioBufferPool) (q : pointer) (x : float)
    (u : unit) :
  Handle.fill q n x p = Returns (u, p') →
  ∃ d, p' = with_data d p ∧ length d = length (data p).
Proof.
  revert p q. induction n as [|n IH]; intros p q.
  - intros [= <-]. exists (data p). by rewrite with_data_same.
  - simpl. unfold mbind, M_bind.
    destruct (store_sample q x p) as [[v r]| |] eqn:Hstore; [|done..].
    apply store_sample_inv in Hstore as (d & -> & Hlen).
    destruct (ptr_add q 1) as [next|]; [|done].
    intros (d' & -> & Hlen')%IH. exists d'. split; [done|].
    simpl in Hlen'. congruence.
Qed.

Lemma clear_inv (p p' : AudioBufferPool) (h : AudioBufferHandle) (u : unit) :
  Handle.clear h p = Returns (u, p') →
  ∃ d, p' = with_data d p ∧ length d = length (data p).
Proof.
  unfold Handle.clear. destruct (Handle.end_ h); [|done]. apply fill_inv.
Qed.

Lemma set_at_inv (p p' : AudioBufferPool) (h : AudioBufferHandle) (i : Z)
    (x : float) (u : unit) :
  Handle.set_at h i x p = Returns (u, p') →
  ∃ d, p' = with_data d p ∧ length d = length (data p).
Proof.
  unfold Handle.set_at. destruct (ptr_add _ _); [|done].
  apply store_sample_inv.
Qed.

Lemma allocate_clear_inv {dm : DataModel} (p p' : AudioBufferPool)
    (h : AudioBufferHandle) :
  Pool.allocate_clear p = Returns (h, p') →
  ∃ p1 d, Pool.allocate p = Returns (h, p1) ∧ p' = with_data d p1
          ∧ length d = length (data p1).
Proof.
  unfold Pool.allocate_clear, mbind, M_bind.
  destruct (Pool.allocate p) as [[res p1]| |]; [|done..].
  destruct (Handle.clear res p1) as [[u p2]| |] eqn:Hclear; [|done..].
  apply clear_inv in Hclear as (d & -> & Hlen).
  simpl. rewrite handle_eta. intros [= <- <-]. eauto.
Qed.

Lemma reachable_invariant {dm : DataModel} (sizes : Z → Prop)
    (p : AudioBufferPool) (hs : list AudioBufferHandle) :
  reachable sizes p hs →
  length (reference_counts p) = 8%nat
  ∧ ∀ i c, reference_counts p !! i = Some c → c = shares hs i.
Proof.
  induction 1 as
    [ bs p _ Hnew
    | p hs h p' _ [Hlen IH] Halloc
    | p hs h p' _ [Hlen IH] Halloc
    | p hs bs p' _ [Hlen IH] _ Hset
    | p hs h h' p' _ [Hlen IH] _ Hcopy
    | p hs h idx len s p' _ [Hlen IH] _ Hslice
    | p hs1 h hs2 h' h0 p' _ [Hlen IH] Hmove
    | p hs1 h hs2 h' p' _ [Hlen IH] Hrel
    | p hs1 h hs2 p' _ [Hlen IH] Hdes
    | p hs h p' _ [Hlen IH] _ Hclear
    | p hs h i x p' _ [Hlen IH] _ Hset ].
  - apply new_inv in Hnew as [_ ->]. split; [done|]. intros i c Hi.
    by apply lookup_replicate in Hi as [-> _].
  - destruct (allocate_effect p p' h Halloc)
      as (k & c & Hr & Hk & Hc & Hk' & Hframe & Hlen' & _).
    split; [congruence|]. intros i y Hi. rewrite shares_cons.
    destruct (decide (i = k)) as [->|Hne].
    + rewrite (shares_one_eq _ _ Hr). pose proof (IH k c Hk).
      pose proof (shares_nonneg hs k). simplify_eq. lia.
    + rewrite shares_one_ne by congruence.
      rewrite Hframe in Hi by done. rewrite (IH i y Hi). lia.
  - apply allocate_clear_inv in Halloc as (p1 & d & Halloc & -> & _).
    destruct (allocate_effect p p1 h Halloc)
      as (k & c & Hr & Hk & Hc & Hk' & Hframe & Hlen' & _).
    simpl. split; [congruence|]. intros i y Hi. rewrite shares_cons.
    destruct (decide (i = k)) as [->|Hne].
    + rewrite (shares_one_eq _ _ Hr). pose proof (IH k c Hk).
      pose proof (shares_nonneg hs k). simplify_eq. lia.
    + rewrite shares_one_ne by congruence.
      rewrite Hframe in Hi by done. rewrite (IH i y Hi). lia.
  - apply set_buffer_size_inv in Hset as [_ ->]. simpl.
    rewrite resize_all_alt by done. by split.
  - apply copy_inv in Hcopy as (k & n & Hr & Hr' & Hk & ->). simpl.
    split; [by rewrite length_insert|]. intros i y Hi. rewrite shares_cons.
    destruct (decide (i = k)) as [->|Hne].
    + rewrite (shares_one_eq _ _ Hr'), <- (IH k n Hk).
      rewrite list_lookup_insert_eq in Hi by (by eapply lookup_lt_Some).
      injection Hi as <-. lia.
    + rewrite shares_one_ne by congruence.
      rewrite list_lookup_insert_ne in Hi by done. rewrite (IH i y Hi). lia.
  - apply slice_inv in Hslice as (k & n & Hr & Hr' & Hk & ->). simpl.
    split; [by rewrite length_insert|]. intros i y Hi. rewrite shares_cons.
    destruct (decide (i = k)) as [->|Hne].
    + rewrite (shares_one_eq _ _ Hr'), <- (IH k n Hk).
      rewrite list_lookup_insert_eq in Hi by (by eapply lookup_lt_Some).
      injection Hi as <-. lia.
    + rewrite shares_one_ne by congruence.
      rewrite list_lookup_insert_ne in Hi by done. rewrite (IH i y Hi). lia.
  - injection Hmove as <- <- <-. rewrite handle_eta.
    split; [done|]. intros i y Hi.
    rewrite (IH i y Hi), !shares_app.
    rewrite (shares_cons h (_ :: hs2)), (shares_cons h hs2).
    rewrite (shares_cons _ hs2).
    rewrite (shares_one_ne (mkHandle nullptr _ None)) by done. lia.
  - apply release_inv in Hrel as ([_ Hr'] & _ & k & n & Hr & Hk & _ & ->).
    simpl. split; [by rewrite length_insert|]. intros i y Hi.
    rewrite shares_app, shares_cons, (shares_one_ne h') by congruence.
    destruct (decide (i = k)) as [->|Hne].
    + pose proof (IH k n Hk) as Hn.
      rewrite shares_app, shares_cons, (shares_one_eq h) in Hn by done.
      rewrite list_lookup_insert_eq in Hi by (by eapply lookup_lt_Some).
      injection Hi as <-. lia.
    + rewrite list_lookup_insert_ne in Hi by done.
      rewrite (IH i y Hi), shares_app, shares_cons.
      rewrite (shares_one_ne h) by congruence. lia.
  - apply destroy_inv in Hdes as [[Hr ->]|(k & n & Hr & Hk & ->)].
    + split; [done|]. intros i y Hi.
      rewrite (IH i y Hi), !shares_app, shares_cons.
      rewrite (shares_one_ne h) by congruence. lia.
    + simpl. split; [by rewrite length_insert|]. intros i y Hi.
      rewrite shares_app.
      destruct (decide (i = k)) as [->|Hne].
      * pose proof (IH k n Hk) as Hn.
        rewrite shares_app, shares_cons, (shares_one_eq h) in Hn by done.
        rewrite list_lookup_insert_eq in Hi by (by eapply lookup_lt_Some).
        injection Hi as <-. lia.
      * rewrite list_lookup_insert_ne in Hi by done.
        rewrite (IH i y Hi), shares_app, shares_cons.
        rewrite (shares_one_ne h) by congruence. lia.
  - apply clear_inv in Hclear as (d & -> & _). by split.
  - apply set_at_inv in Hset as (d & -> & _). by split.
Qed.

(** In every state such a program reaches, the count of each slot is the
    number of handles that point to it, so a slot is free for [allocate]
    exactly when no handle refers to it.  Copies, slices, moves, releases
    and destructions keep this, and so does [set_buffer_size]. *)
Theorem counts_are_live_handles {dm : DataModel} (sizes : Z → Prop)
    (p : AudioBufferPool) (hs : list AudioBufferHandle) :
  reachable sizes p hs →
  ∀ i c, reference_counts p !! i = Some c →
    c = shares hs i
    ∧ (c < 1 ↔ ∀ h, h ∈ hs → _reference_count h ≠ Some i).
Proof.
  intros [_ Hinv]%reachable_invariant i c Hi.
  rewrite (Hinv i c Hi). split; [done|].
  rewrite <- shares_zero_iff. pose proof (shares_nonneg hs i). lia.
Qed.

Lemma pool_ABC_reachable :
  reachable (dm:=LP64) indexable pool_ABC [handle_C; handle_B; handle_A].
Proof.
  apply (reach_allocate indexable
           (with_counts [1; 1; 0; 0; 0; 0; 0; 0] pool_ABC)
           [handle_B; handle_A] handle_C pool_ABC); [|reflexivity].
  apply (reach_allocate indexable
           (with_counts [1; 0; 0; 0; 0; 0; 0; 0] pool_ABC)
           [handle_A] handle_B
           (with_counts [1; 1; 0; 0; 0; 0; 0; 0] pool_ABC)); [|reflexivity].
  apply (reach_allocate indexable
           (with_counts [0; 0; 0; 0; 0; 0; 0; 0] pool_ABC)
           [] handle_A
           (with_counts [1; 0; 0; 0; 0; 0; 0; 0] pool_ABC)); [|reflexivity].
  apply (reach_new indexable 64); [|reflexivity].
  unfold indexable, number_of_buffers, INT_MAX. lia.
Defined.

Lemma counts_are_live_handles_witness :
  1 = shares [handle_C; handle_B; handle_A] 1
  ∧ (1 < 1 ↔ ∀ h, h ∈ [handle_C; handle_B; handle_A] →
                  _reference_count h ≠ Some 1%nat).
Proof.
  apply (counts_are_live_handles (dm:=LP64) indexable pool_ABC
           [handle_C; handle_B; handle_A] pool_ABC_reachable 1%nat 1).
  reflexivity.
Defined.

Lemma pool_wf_with_counts (p : AudioBufferPool) (cs : list Z) :
  pool_wf p → length cs = length (reference_counts p) →
  pool_wf (with_counts cs p).
Proof. intros [Hcs Hbs Hidx Hdata] Hlen. split; simpl; congruence. Qed.

Lemma pool_wf_with_data (p : AudioBufferPool) (d : list float) :
  pool_wf p → length d = length (data p) → pool_wf (with_data d p).
Proof. intros [Hcs Hbs Hidx Hdata] Hlen. split; simpl; congruence. Qed.

(** Every state such a program reaches with buffer sizes whose slots can
    be indexed by an [int] is well formed: eight count cells, and storage
    of eight slots of the current buffer size. *)
Theorem reachable_pool_is_well_formed {dm : DataModel} (p : AudioBufferPool)
    (hs : list AudioBufferHandle) :
  reachable indexable p hs → pool_wf p.
Proof.
  induction 1 as
    [ bs p [H0 Hmax] Hnew
    | p hs h p' _ IH Halloc
    | p hs h p' _ IH Halloc
    | p hs bs p' _ IH [H0 Hmax] Hset
    | p hs h h' p' _ IH _ Hcopy
    | p hs h idx len s p' _ IH _ Hslice
    | p hs1 h hs2 h' h0 p' _ IH Hmove
    | p hs1 h hs2 h' p' _ IH Hrel
    | p hs1 h hs2 p' _ IH Hdes
    | p hs h p' _ IH _ Hclear
    | p hs h i x p' _ IH _ Hset ].
  - by destruct (new_wf bs p H0 Hmax Hnew) as (Hwf & _).
  - by eapply allocate_wf.
  - apply allocate_clear_inv in Halloc as (p1 & d & Halloc & -> & Hlen).
    apply pool_wf_with_data; [by eapply allocate_wf|done].
  - by eapply set_buffer_size_wf.
  - apply copy_inv in Hcopy as (k & n & _ & _ & _ & ->).
    apply pool_wf_with_counts; [done|apply length_insert].
  - apply slice_inv in Hslice as (k & n & _ & _ & _ & ->).
    apply pool_wf_with_counts; [done|apply length_insert].
  - by injection Hmove as <- <- <-.
  - apply release_inv in Hrel as (_ & _ & k & n & _ & _ & _ & ->).
    apply pool_wf_with_counts; [done|apply length_insert].
  - apply destroy_inv in Hdes as [[_ ->]|(k & n & _ & _ & ->)]; [done|].
    apply pool_wf_with_counts; [done|apply length_insert].
  - apply clear_inv in Hclear as (d & -> & Hlen).
    by apply pool_wf_with_data.
  - apply set_at_inv in Hset as (d & -> & Hlen).
    by apply pool_wf_with_data.
Qed.

Lemma reachable_pool_is_well_formed_witness : pool_wf pool_ABC.
Proof.
  apply (reachable_pool_is_well_formed (dm:=LP64) pool_ABC
           [handle_C; handle_B; handle_A] pool_ABC_reachable).
Defined.

(** In every state such a program reaches, the slot that [allocate]
    returns is one that none of the existing handles points to. *)
Theorem allocate_returns_unreferenced_slot {dm : DataModel}
    (sizes : Z → Prop) (p p' : AudioBufferPool)
    (hs : list AudioBufferHandle) (h : AudioBufferHandle) :
  reachable sizes p hs →
  Pool.allocate p = Returns (h, p') →
  ∀ g, g ∈ hs → _reference_count g ≠ _reference_count h.
Proof.
  intros [_ Hinv]%reachable_invariant
    (i & c & Hr & Hi & Hc & _)%allocate_effect g Hg.
  rewrite Hr. apply (proj1 (shares_zero_iff hs i)); [|done].
  pose proof (Hinv i c Hi). pose proof (shares_nonneg hs i). lia.
Qed.

Lemma allocate_returns_unreferenced_slot_witness :
  _reference_count handle_B ≠ _reference_count handle_D.
Proof.
  apply (allocate_returns_unreferenced_slot (dm:=LP64) indexable
           pool_ABC pool_ABCD [handle_C; handle_B; handle_A] handle_D
           pool_ABC_reachable);
    [reflexivity | repeat constructor].
Defined.

(** ** Allocating several cleared handles *)

Lemma allocate_clear_effect {dm : DataModel} (p p1 : AudioBufferPool)
    (h : AudioBufferHandle) :
  pool_wf p →
  Pool.allocate p = Returns (h, p1) →
  ∃ (i : nat) d,
    _reference_count h = Some i
    ∧ _data h = Ptr (data_blk p) (Z.of_nat i * buffer_size p)
    ∧ _length h = buffer_size p
    ∧ Pool.allocate_clear p = Returns (h, with_data d p1)
    ∧ length d = length (data p)
    ∧ (∀ x : nat,
         Z.of_nat i * buffer_size p <= Z.of_nat x
           < (Z.of_nat i + 1) * buffer_size p →
         d !! x = Some float_zero)
    ∧ (∀ x : nat,
         Z.of_nat x < Z.of_nat i * buffer_size p
         ∨ (Z.of_nat i + 1) * buffer_size p <= Z.of_nat x →
         d !! x = data p !! x).
Proof.
  intros Hwf Halloc.
  destruct (allocate_effect p p1 h Halloc)
    as (i & c & Hr & Hi & _ & _ & _ & _ & Hd1 & Hb1 & _).
  pose proof Halloc as (i' & c' & Hi' & _ & _ & Hh & _)%allocate_inv.
  assert (i' = i) as -> by (rewrite Hh in Hr; by injection Hr).
  destruct (pool_wf_slot p i c' Hwf Hi') as (Hoff & Hpos & Hfit).
  rewrite Hoff in Hh. destruct Hwf as [_ Hbs _ _].
  destruct (fill_region (Z.to_nat (buffer_size p)) p1
              (Z.to_nat (Z.of_nat i * buffer_size p)) float_zero)
    as (d & Hrun & Hlen & Hin & Hout); [by rewrite Hd1|].
  rewrite Z2Nat.id, Hb1 in Hrun by done.
  exists i, d. split_and!.
  - done.
  - by rewrite Hh.
  - by rewrite Hh.
  - unfold Pool.allocate_clear, mbind, M_bind. rewrite Halloc.
    unfold Handle.clear, Handle.end_, Handle.begin. rewrite Hh. simpl.
    by rewrite Hrun.
  - by rewrite Hlen, Hd1.
  - intros x Hx. apply Hin. lia.
  - intros x Hx. rewrite <- Hd1. apply Hout. lia.
Qed.

Lemma generate_allocate_clear_spec {dm : DataModel} (n : nat) :
  ∀ (k : Z) (p : AudioBufferPool),
    pool_wf p → (n ≤ free_slots p)%nat →
    ∃ hs p',
      Pool.generate_array n k (λ _, Pool.allocate_clear) p = Returns (hs, p')
      ∧ length hs = n
      ∧ NoDup (_reference_count <$> hs)
      ∧ pool_wf p'
      ∧ buffer_size p' = buffer_size p ∧ data_blk p' = data_blk p
      ∧ free_slots p = (n + free_slots p')%nat
      ∧ (∀ h, h ∈ hs →
           ∃ i : nat,
             _reference_count h = Some i
             ∧ _data h = Ptr (data_blk p) (Z.of_nat i * buffer_size p)
             ∧ _length h = buffer_size p
             ∧ reference_counts p' !! i = Some 1
             ∧ ∀ x : nat,
                 Z.of_nat i * buffer_size p <= Z.of_nat x
                   < (Z.of_nat i + 1) * buffer_size p →
                 data p' !! x = Some float_zero)
      ∧ (∀ (j : nat) (c : Z),
           reference_counts p !! j = Some c → ¬ c < 1 →
           reference_counts p' !! j = Some c
           ∧ (Some j ∉ _reference_count <$> hs)
           ∧ ∀ x : nat,
               Z.of_nat j * buffer_size p <= Z.of_nat x
                 < (Z.of_nat j + 1) * buffer_size p →
               data p' !! x = data p !! x).
Proof.
  induction n as [|n IH]; intros k p Hwf Hfree.
  - exists [], p. split_and!; try done.
    + constructor.
    + intros h Hh. by apply elem_of_nil in Hh.
    + intros j c Hj Hc. split_and!; [done|apply not_elem_of_nil|done].
  - destruct (allocate_cases p) as [[_ H0]|(h & p1 & Halloc & _)]; [lia|].
    pose proof (proj2 (allocate_free_slot_count p) h p1 Halloc) as Hone.
    destruct (allocate_effect p p1 h Halloc)
      as (i & c & Hr & Hi & Hc & Hi1 & Hframe & _ & Hd1 & Hb1 & Hs1).
    destruct (allocate_clear_effect p p1 h Hwf Halloc)
      as (i' & d & Hr' & Hdat & Hlen & Hclear & Hdlen & Hzero & Hout).
    assert (i' = i) as -> by congruence.
    assert (pool_wf (with_data d p1)) as Hwf1.
    { apply pool_wf_with_data; [by eapply allocate_wf|].
      by rewrite Hdlen, Hd1. }
    destruct (IH (k + 1) (with_data d p1) Hwf1)
      as (hs & p' & Hrun & Hhs & Hnd & Hwf' & Hbs' & Hblk' & Hcnt & Hin
          & Hheld); [unfold free_slots in *; simpl; lia|].
    simpl in Hbs', Hblk', Hin, Hheld. rewrite Hs1 in *. rewrite Hb1 in *.
    destruct (Hheld i 1 Hi1) as (Hi' & Hnotin & Hkeep); [lia|].
    assert (i < 8)%nat as Hi8.
    { apply lookup_lt_Some in Hi. by rewrite (wf_counts p Hwf) in Hi. }
    pose proof (wf_size p Hwf) as Hbs0.
    exists (h :: hs), p'. split_and!.
    + by rewrite generate_array_S, Hclear, Hrun.
    + simpl. by rewrite Hhs.
    + simpl. apply NoDup_cons. split; [by rewrite Hr|done].
    + done.
    + done.
    + done.
    + unfold free_slots in *. simpl in Hcnt. lia.
    + intros g [->|Hg]%elem_of_cons.
      * exists i. split_and!; try done.
        intros x Hx. rewrite Hkeep by done. by apply Hzero.
      * destruct (Hin g Hg) as (j & Hgr & Hgd & Hgl & Hj' & Hgz).
        exists j. by split_and!.
    + intros j y Hj Hy.
      assert (j ≠ i) as Hne by (intros ->; simplify_eq; lia).
      assert (j < 8)%nat as Hj8.
      { apply lookup_lt_Some in Hj. by rewrite (wf_counts p Hwf) in Hj. }
      destruct (Hheld j y) as (Hj' & Hjnot & Hjkeep);
        [by rewrite Hframe|done|].
      split_and!; [done| |].
      * simpl. rewrite Hr.
        intros [Heq|?]%elem_of_cons; [|done]. by injection Heq.
      * intros x Hx. rewrite Hjkeep by done. apply Hout. nia.
Qed.

(** [allocate_multi_clear<NN>] on a well-formed pool with at least [NN]
    free slots returns [NN] handles on pairwise different slots, and every
    sample of every returned view reads as zero. *)
Theorem allocate_multi_clear_reads_zero {dm : DataModel} (NN : nat)
    (p : AudioBufferPool) :
  pool_wf p → (NN ≤ free_slots p)%nat →
  ∃ hs p',
    Pool.allocate_multi_clear NN p = Returns (hs, p')
    ∧ length hs = NN
    ∧ NoDup (_reference_count <$> hs)
    ∧ ∀ h, h ∈ hs →
        Handle.size h = buffer_size p
        ∧ ∀ x, 0 <= x < Handle.size h →
               Handle.at_ h x p' = Returns (float_zero, p').
Proof.
  intros Hwf Hfree.
  destruct (generate_allocate_clear_spec NN 0 p Hwf Hfree)
    as (hs & p' & Hrun & Hlen & Hnd & _ & _ & Hblk & _ & Hin & _).
  exists hs, p'. split_and!; try done.
  intros h Hh. destruct (Hin h Hh) as (i & _ & Hd & Hl & _ & Hzero).
  unfold Handle.size. split; [done|]. intros x Hx.
  pose proof (wf_size p Hwf).
  apply (at_cell p' h (Z.of_nat i * buffer_size p) x); [by rewrite Hblk|nia|].
  apply Hzero. rewrite Z2Nat.id by nia. nia.
Qed.

Lemma allocate_multi_clear_reads_zero_witness :
  data pool_ones = replicate 32 float_one
  ∧ ∃ hs p',
      Pool.allocate_multi_clear (dm:=LP64) 2 pool_ones = Returns (hs, p')
      ∧ length hs = 2%nat
      ∧ NoDup (_reference_count <$> hs)
      ∧ ∀ h, h ∈ hs →
          Handle.size h = buffer_size pool_ones
          ∧ ∀ x, 0 <= x < Handle.size h →
                 Handle.at_ h x p' = Returns (float_zero, p').
Proof.
  split; [reflexivity|].
  apply (allocate_multi_clear_reads_zero (dm:=LP64) 2 pool_ones pool_ones_wf).
  vm_compute. lia.
Defined.

(** ** Memory safety of the pool *)

Lemma generate_allocate_clear_exhausted {dm : DataModel} (n : nat) :
  ∀ (k : Z) (p : AudioBufferPool),
    pool_wf p → (free_slots p < n)%nat →
    Pool.generate_array n k (λ _, Pool.allocate_clear) p = Terminates.
Proof.
  induction n as [|n IH]; intros k p Hwf Hfree; [lia|].
  rewrite generate_array_S.
  destruct (allocate_cases p) as [[Ht _]|(h & p1 & Halloc & _)].
  - unfold Pool.allocate_clear, mbind, M_bind. by rewrite Ht.
  - pose proof (proj2 (allocate_free_slot_count p) h p1 Halloc) as Hone.
    destruct (allocate_effect p p1 h Halloc)
      as (_ & _ & _ & _ & _ & _ & _ & _ & Hd1 & _).
    destruct (allocate_clear_effect p p1 h Hwf Halloc)
      as (i & d & _ & _ & _ & -> & Hdlen & _).
    rewrite (IH (k + 1) (with_data d p1)); [done| |].
    + apply pool_wf_with_data; [by eapply allocate_wf|].
      by rewrite Hdlen, Hd1.
    + unfold free_slots in *. simpl. lia.
Qed.

(** On a well-formed pool, where every address that [allocate] forms
    lies within the array, [allocate], [allocate_clear], [allocate_multi]
    and [allocate_multi_clear] either return or reach [std::terminate];
    they never run into undefined behaviour. *)
Theorem allocate_is_memory_safe {dm : DataModel} (p : AudioBufferPool) :
  pool_wf p →
  Pool.allocate p ≠ Undefined
  ∧ Pool.allocate_clear p ≠ Undefined
  ∧ (∀ NN, Pool.allocate_multi NN p ≠ Undefined)
  ∧ (∀ NN, Pool.allocate_multi_clear NN p ≠ Undefined)
  ∧ (∀ h p', Pool.allocate p = Returns (h, p') →
             points_into p' (Handle.data h)
             ∧ ∃ q, Handle.end_ h = Some q ∧ points_into p' q).
Proof.
  intros Hwf. split_and!.
  - by destruct (allocate_cases p) as [[-> _]|(h & p' & -> & _)].
  - destruct (allocate_cases p) as [[Ht _]|(h & p' & Halloc & _)].
    + unfold Pool.allocate_clear, mbind, M_bind. by rewrite Ht.
    + destruct (allocate_clear_effect p p' h Hwf Halloc)
        as (i & d & _ & _ & _ & -> & _). done.
  - intros NN. destruct (decide (NN ≤ free_slots p)%nat) as [Hle|Hgt].
    + destruct (generate_allocate_spec NN 0 p Hle) as (hs & p' & Hrun & _).
      unfold Pool.allocate_multi. by rewrite Hrun.
    + unfold Pool.allocate_multi.
      rewrite (generate_allocate_exhausted NN 0 p); [done|lia].
  - intros NN. destruct (decide (NN ≤ free_slots p)%nat) as [Hle|Hgt].
    + destruct (generate_allocate_clear_spec NN 0 p Hwf Hle)
        as (hs & p' & Hrun & _).
      unfold Pool.allocate_multi_clear. by rewrite Hrun.
    + unfold Pool.allocate_multi_clear.
      rewrite (generate_allocate_clear_exhausted NN 0 p); [done|done|lia].
  - intros h p' Halloc.
    destruct (allocate_effect p p' h Halloc)
      as (i & c & _ & Hi & _ & _ & _ & _ & Hd1 & Hb1 & _).
    apply allocate_inv in Halloc as (k & y & Hk & _ & _ & Hh & _).
    destruct (pool_wf_slot p k y Hwf Hk) as (Hoff & Hpos & Hfit).
    rewrite Hoff in Hh. pose proof (wf_size p Hwf) as Hbs.
    assert (Z.of_nat k * buffer_size p + buffer_size p
            <= Z.of_nat (length (data p))) as Hend by lia.
    unfold Handle.data, Handle.end_. rewrite Hh. simpl.
    rewrite Hd1, Hb1. split; [split; [done|lia]|].
    eexists. split; [done|]. simpl. rewrite Hd1, Hb1. split; [done|lia].
Qed.

Lemma allocate_is_memory_safe_witness :
  Pool.allocate (dm:=LP64) pool_ones ≠ Undefined
  ∧ Pool.allocate_clear (dm:=LP64) pool_ones ≠ Undefined
  ∧ (∀ NN, Pool.allocate_multi (dm:=LP64) NN pool_ones ≠ Undefined)
  ∧ (∀ NN, Pool.allocate_multi_clear (dm:=LP64) NN pool_ones ≠ Undefined)
  ∧ (∀ h p', Pool.allocate (dm:=LP64) pool_ones = Returns (h, p') →
             points_into p' (Handle.data h)
             ∧ ∃ q, Handle.end_ h = Some q ∧ points_into p' q).
Proof.
  apply (allocate_is_memory_safe (dm:=LP64) pool_ones pool_ones_wf).
Defined.
